(** * A JBOK wallet: UTXO bookkeeping and coin selection

    Shallow embedding of [src/wallet.js] (class [Wallet]) and the properties
    of its operations: [balance], [addUTXO], [spendUTXOs], [makeAddress]
    and [hasKey].

    Modelling conventions.
    - JavaScript numbers that hold output indices are integers ([Z]).  Coin
      amounts are modelled twice.  At top level they are integers ([Z])
      with exact comparisons and additions: this serves the properties that
      only depend on the comparisons the code makes.  In [Module Doubles]
      they are IEEE 754 binary64 numbers, as in the source, with additions
      and subtractions rounded to nearest even: this serves the properties
      that depend on what the sums evaluate to.
    - [this.coins] is a JavaScript array; it is a [list Coin] in array order
      (index 0 first).  [unshift] is a cons, [pop] removes the last element,
      [coins[coins.length - 1]] is the last element.
    - [this.addresses] is an ordinary JavaScript object created by [{}]:
      its own properties are a [gmap string KeyPair], and a property read
      that misses them falls through to the prototype chain, which ends in
      [Object.prototype].
    - A method call either returns or throws; both outcomes carry the wallet
      as the call left it.
    - [utils.sign], [utils.calcAddress], [utils.generateKeypair] and the
      [keypair] package are collaborators outside [src/]; the first two are
      section variables, the key pairs they produce are arguments. *)

From stdpp Require Import base gmap list strings.
From Equations Require Import Equations.
From Stdlib Require Import ZArith Lia Floats.SpecFloat.

Local Open Scope string_scope.
Local Open Scope list_scope.
Local Open Scope Z_scope.

(** ** Data model *)

(** A UTXO, [{ amount, address }]. *)
Record UTXO : Type := mkUTXO { amount : Z; address : string }.

(** A coin, [{ output, txID, outputIndex }]. *)
Record Coin : Type := mkCoin { output : UTXO; txID : string; outputIndex : Z }.

(** A key pair as returned by [keypair()], [{ public, private }]. *)
Record KeyPair : Type := mkKeyPair { public : string; private : string }.

(** A transaction input, [{ txID, outputIndex, pubKey, sig }].  [pubKey] is
    [None] when the expression that computes it evaluates to [undefined]. *)
Record Input : Type := mkInput {
  inTxID : string;
  inOutputIndex : Z;
  pubKey : option string;
  sig : string
}.

#[global] Instance UTXO_eq_dec : EqDecision UTXO.
Proof. solve_decision. Defined.
#[global] Instance Coin_eq_dec : EqDecision Coin.
Proof. solve_decision. Defined.
#[global] Instance KeyPair_eq_dec : EqDecision KeyPair.
Proof. solve_decision. Defined.
#[global] Instance Input_eq_dec : EqDecision Input.
Proof. solve_decision. Defined.

(** ** The [addresses] object *)

(** What a property read [this.addresses[k]] can evaluate to. *)
Inductive Value : Type :=
| VUndefined                 (* undefined *)
| VKeyPair (kp : KeyPair)    (* a key pair object *)
| VString (s : string)       (* a string primitive *)
| VBuiltin.                  (* a built-in function or object of the prototype chain *)

#[global] Instance Value_eq_dec : EqDecision Value.
Proof. solve_decision. Defined.

(** The property names of [Object.prototype]: eleven functions and the
    [__proto__] accessor. *)
Definition object_prototype_names : list string :=
  [ "constructor"; "hasOwnProperty"; "isPrototypeOf"; "propertyIsEnumerable";
    "toLocaleString"; "toString"; "valueOf";
    "__defineGetter__"; "__defineSetter__"; "__lookupGetter__";
    "__lookupSetter__"; "__proto__" ].

(** A property read on [Object.prototype] itself. *)
Definition object_prototype (k : string) : Value :=
  if bool_decide (k ∈ object_prototype_names) then VBuiltin else VUndefined.

(** The object behind [this.addresses].  [own] holds the own properties.
    [proto] is [None] while the prototype is [Object.prototype], as [{}]
    creates it, and [Some kp] once the assignment
    [this.addresses["__proto__"] = kp] has run the [__proto__] setter, which
    makes the key pair object [kp] the prototype ([kp] in turn has
    [Object.prototype] for prototype). *)
Record AddressMap : Type := mkAddressMap {
  own : gmap string KeyPair;
  proto : option KeyPair
}.

(** [{}] *)
Definition empty_object : AddressMap := {| own := ∅; proto := None |}.

(** [o[k]]: own properties first, then the prototype chain. *)
Definition get (o : AddressMap) (k : string) : Value :=
  match own o !! k with
  | Some kp => VKeyPair kp
  | None =>
      match proto o with
      | None =>
          object_prototype k
      | Some kp =>
          if decide (k = "__proto__") then VKeyPair kp
          else if decide (k = "public") then VString (public kp)
          else if decide (k = "private") then VString (private kp)
          else object_prototype k
      end
  end.

(** [o[k] = kp].  Every property of the chain is a writable data property,
    so the assignment creates or overwrites an own property, except for the
    accessor [__proto__], whose setter replaces the prototype. *)
Definition set (o : AddressMap) (k : string) (kp : KeyPair) : AddressMap :=
  if decide (k = "__proto__" ∧ own o !! k = None)
  then {| own := own o; proto := Some kp |}
  else {| own := <[k := kp]> (own o); proto := proto o |}.

(** [v === undefined] *)
Definition is_undefined (v : Value) : bool :=
  match v with VUndefined => true | _ => false end.

(** [!!v]: [undefined] and the empty string are falsy, objects and functions
    are truthy. *)
Definition truthy (v : Value) : bool :=
  match v with
  | VUndefined => false
  | VKeyPair _ => true
  | VString s => negb (bool_decide (s = ""))
  | VBuiltin => true
  end.

(** [v.public] and [v.private] for a [v] that is not [undefined]: the field
    of a key pair, [undefined] on a string, a function or [Object.prototype]. *)
Definition public_of (v : Value) : option string :=
  match v with VKeyPair kp => Some (public kp) | _ => None end.

Definition private_of (v : Value) : option string :=
  match v with VKeyPair kp => Some (private kp) | _ => None end.

(** The address book of the wallet: the addresses that have a key pair
    registered, with that key pair. *)
Definition registered (o : AddressMap) (a : string) : Prop :=
  ∃ kp, get o a = VKeyPair kp.

#[global] Instance registered_dec o a : Decision (registered o a).
Proof.
  unfold registered.
  destruct (get o a) as [|kp|s|] eqn:E.
  - right. intros [kp H]. discriminate.
  - left. by exists kp.
  - right. intros [kp H]. discriminate.
  - right. intros [kp H]. discriminate.
Defined.

(** ** The wallet *)

Record Wallet : Type := mkWallet {
  coins : list Coin;
  addresses : AddressMap;
  kp : KeyPair
}.

(** The errors a method can throw.  The source throws
    [new Error("Insufficient funds. ...")] and
    [new Error("Wallet does not have key for ...")]; a property read on
    [undefined] throws a [TypeError]; [SignError] stands for an exception
    raised by [utils.sign]. *)
Inductive Error : Type :=
| InsufficientFunds (requested available : Z)
| UnknownAddress (a : string)
| TypeError
| SignError.

(** The outcome of a method call. *)
Inductive Outcome (A : Type) : Type :=
| Returns (w : Wallet) (a : A)
| Throws (w : Wallet) (e : Error).
Arguments Returns {A} w a.
Arguments Throws {A} w e.

(** The wallet a call leaves behind, whichever way it ends. *)
Definition wallet_after {A} (r : Outcome A) : Wallet :=
  match r with Returns w _ => w | Throws w _ => w end.

(** [constructor()]; [k0] is what [utils.generateKeypair()] returns. *)
Definition constructor (k0 : KeyPair) : Wallet :=
  {| coins := []; addresses := empty_object; kp := k0 |}.

(** [get balance()]:
    [this.coins.reduce((acc, { output }) => acc + output.amount, 0)]. *)
Definition balance (w : Wallet) : Z :=
  fold_left (fun acc c => acc + amount (output c)) (coins w) 0.

(** [addUTXO(utxo, txID, outputIndex)] *)
Definition addUTXO (utxo : UTXO) (tx : string) (idx : Z) (w : Wallet)
  : Outcome unit :=
  if is_undefined (get (addresses w) (address utxo))
  then Throws w (UnknownAddress (address utxo))
  else Returns {| coins := {| output := utxo; txID := tx; outputIndex := idx |}
                             :: coins w;
                  addresses := addresses w;
                  kp := kp w |} tt.

(** [hasKey(address)]: [!!this.addresses[address]] *)
Definition hasKey (a : string) (w : Wallet) : bool :=
  truthy (get (addresses w) a).

(** ** Operations that use the external primitives *)

(** The local variables of [spendUTXOs] together with [this.coins], the one
    field of the wallet its loop writes. *)
Record LoopState : Type := mkLoopState {
  remaining : list Coin;      (* this.coins *)
  changeAmount : Z;
  collectAmount : Z;
  inputs : list Input
}.

(** A value together with the proof that it is the given one; the loop
    below matches on the outcome of a step and keeps the equation. *)
Definition inspect {A : Type} (x : A) : { y : A | x = y } := exist _ x eq_refl.

(** How one evaluation of the loop test and body ends. *)
Inductive Step : Type :=
| Exit (st : LoopState)                (* the loop test is false *)
| Break (st : LoopState)               (* the body ran into [break] *)
| Continue (st : LoopState)            (* the body ran to its end *)
| Raise (e : Error) (st : LoopState).  (* the body threw *)

(** The object [spendUTXOs] returns, [{ inputs, changeAmt }]. *)
Record Spend : Type := mkSpend { spendInputs : list Input; changeAmt : Z }.

Section Primitives.

(** [utils.sign(privKey, msg)]; the key is [None] when the argument is
    [undefined], the result is [None] when the primitive throws. *)
Variable sign : option string → UTXO → option string.

(** [utils.calcAddress(publicKey)] *)
Variable calcAddress : string → string.

(** The object literal pushed on [inputs] for the coin [c]:
    [{ txID, outputIndex,
       pubKey: this.addresses[output.address].public,
       sig: utils.sign(this.addresses[output.address].private, output) }]. *)
Definition make_input (book : AddressMap) (c : Coin) : Error + Input :=
  let v := get book (address (output c)) in
  if is_undefined v then inl TypeError
  else match sign (private_of v) (output c) with
       | None => inl SignError
       | Some s => inr {| inTxID := txID c;
                          inOutputIndex := outputIndex c;
                          pubKey := public_of v;
                          sig := s |}
       end.

(** The loop test [this.coins.length > 0 && collectAmount < amount]
    followed by one run of the loop body. *)
Definition loop_step (target : Z) (book : AddressMap) (st : LoopState) : Step :=
  match last (remaining st) with
  | None => Exit st
  | Some c =>
      if collectAmount st <? target then
        let oldestCoinAmountFromWallet := amount (output c) in
        if oldestCoinAmountFromWallet >? target then
          let change' := changeAmount st + (oldestCoinAmountFromWallet - target) in
          let collect' := collectAmount st + target in
          let coins' := removelast (remaining st) in
          match make_input book c with
          | inl e => Raise e (mkLoopState coins' change' collect' (inputs st))
          | inr i => Break (mkLoopState coins' change' collect' (inputs st ++ [i]))
          end
        else if oldestCoinAmountFromWallet =? target then
          let collect' := collectAmount st + target in
          let coins' := removelast (remaining st) in
          match make_input book c with
          | inl e => Raise e (mkLoopState coins' (changeAmount st) collect' (inputs st))
          | inr i => Break (mkLoopState coins' (changeAmount st) collect' (inputs st ++ [i]))
          end
        else
          let collect' := collectAmount st + oldestCoinAmountFromWallet in
          let coins' := removelast (remaining st) in
          match make_input book c with
          | inl e => Raise e (mkLoopState coins' (changeAmount st) collect' (inputs st))
          | inr i => Continue (mkLoopState coins' (changeAmount st) collect' (inputs st ++ [i]))
          end
      else Exit st
  end.

(** The [while] loop of [spendUTXOs]: [inr] is the state at the normal end
    of the loop, [inl] the exception and the state when it was thrown. *)
Equations spend_loop (target : Z) (book : AddressMap) (st : LoopState)
  : Error * LoopState + LoopState by wf (length (remaining st)) lt :=
  spend_loop target book st with inspect (loop_step target book st) := {
    | @exist (Exit st') _ => inr st'
    | @exist (Break st') _ => inr st'
    | @exist (Raise e st') _ => inl (e, st')
    | @exist (Continue st') H => spend_loop target book st' }.
Next Obligation.
  unfold loop_step in H.
  destruct (last (remaining st)) as [c|] eqn:Hl; [|done].
  apply last_Some in Hl as [l' Hl].
  assert (length (removelast (remaining st)) < length (remaining st))%nat.
  { rewrite Hl, removelast_last, length_app. simpl. lia. }
  repeat case_match; try done; injection H as <-; done.
Qed.

(** [spendUTXOs(amount)]; [target] is the parameter [amount]. *)
Definition spendUTXOs (target : Z) (w : Wallet) : Outcome Spend :=
  if target >? balance w
  then Throws w (InsufficientFunds target (balance w))
  else
    match spend_loop target (addresses w) (mkLoopState (coins w) 0 0 []) with
    | inr st =>
        Returns (mkWallet (remaining st) (addresses w) (kp w))
                (mkSpend (inputs st) (changeAmount st))
    | inl (e, st) =>
        Throws (mkWallet (remaining st) (addresses w) (kp w)) e
    end.

(** [makeAddress()]; [k] is what [keypair()] returns. *)
Definition makeAddress (k : KeyPair) (w : Wallet) : Outcome string :=
  let addr := calcAddress (public k) in
  Returns (mkWallet (coins w) (set (addresses w) addr k) (kp w)) addr.

(** A call of one of the five operations of the class. *)
Inductive Op : Type :=
| OpBalance
| OpAddUTXO (utxo : UTXO) (tx : string) (idx : Z)
| OpSpendUTXOs (target : Z)
| OpMakeAddress (k : KeyPair)
| OpHasKey (a : string).

(** The wallet after a call, whether it returned or threw. *)
Definition run_op (w : Wallet) (o : Op) : Wallet :=
  match o with
  | OpBalance => w
  | OpAddUTXO utxo tx idx => wallet_after (addUTXO utxo tx idx w)
  | OpSpendUTXOs target => wallet_after (spendUTXOs target w)
  | OpMakeAddress k => wallet_after (makeAddress k w)
  | OpHasKey a => w
  end.

Definition run_ops (w : Wallet) (ops : list Op) : Wallet :=
  fold_left run_op ops w.

End Primitives.

(** A sequence of [addUTXO] calls, one per element of [l] and in that
    order; an element gives the three arguments of its call.  The sequence
    stops at the first call that throws. *)
Fixpoint ingest (l : list Coin) (w : Wallet) : Outcome unit :=
  match l with
  | [] => Returns w tt
  | c :: l' =>
      match addUTXO (output c) (txID c) (outputIndex c) w with
      | Returns w' _ => ingest l' w'
      | Throws w' e => Throws w' e
      end
  end.

(** The sum of [output.amount] over a list of coins. *)
Definition sum_amounts (l : list Coin) : Z :=
  foldr (fun c acc => amount (output c) + acc) 0 l.

(** A coin whose amount is below the requested amount. *)
Definition below (target : Z) (c : Coin) : Prop := amount (output c) < target.

#[global] Instance below_dec target c : Decision (below target c).
Proof. unfold below. apply _. Defined.

(** [spends sign book c i]: [i] is the input the loop builds for the coin [c]. *)
Definition spends (sign : option string → UTXO → option string)
  (book : AddressMap) (c : Coin) (i : Input) : Prop :=
  make_input sign book c = inr i.

(** Whether the input of a coin can be built: its address has a value in
    [addresses] and [utils.sign] returns. *)
Definition can_spend (sign : option string → UTXO → option string)
  (book : AddressMap) (c : Coin) : bool :=
  match make_input sign book c with inr _ => true | inl _ => false end.

(** The names a property read on [addresses] can find on its prototype
    chain: those of [Object.prototype], and the two fields of a key pair
    once one has become the prototype. *)
Definition chain_names : list string :=
  object_prototype_names ++ ["public"; "private"].

(** The addresses the [makeAddress()] calls among [ops] return. *)
Definition minted (calcAddress : string → string) (ops : list Op) : list string :=
  flat_map (fun o => match o with
                     | OpMakeAddress k => [calcAddress (public k)]
                     | _ => []
                     end) ops.

(** The addresses of the outputs passed to the [addUTXO] calls among [ops]. *)
Definition ingested (ops : list Op) : list string :=
  flat_map (fun o => match o with
                     | OpAddUTXO utxo _ _ => [address utxo]
                     | _ => []
                     end) ops.

(** Every coin held has a key pair registered for its address. *)
Definition coins_registered (w : Wallet) : Prop :=
  Forall (fun c => registered (addresses w) (address (output c))) (coins w).

(** Every coin held has an address that [addresses] maps to some value. *)
Definition coins_defined (w : Wallet) : Prop :=
  Forall (fun c => get (addresses w) (address (output c)) ≠ VUndefined) (coins w).

(** ** Concrete primitives and wallets, to run the operations *)

Definition toy_sign (priv : option string) (u : UTXO) : option string :=
  match priv with
  | Some k => Some ("signed:" ++ k)%string
  | None => None
  end.

Definition toy_calcAddress (pub : string) : string := ("addr:" ++ pub)%string.

Definition kA : KeyPair := mkKeyPair "pubA" "privA".

(** A new wallet after one [makeAddress()], which returned ["addr:pubA"]. *)
Definition wallet_A : Wallet :=
  wallet_after (makeAddress toy_calcAddress kA (constructor kA)).

(** [wallet_A] holding coins of the given amounts, oldest first, each at
    ["addr:pubA"]. *)
Definition coin_A (tx : string) (a : Z) : Coin :=
  mkCoin (mkUTXO a "addr:pubA") tx 0.



Definition wallet_50 : Wallet :=
  wallet_after (ingest [coin_A "t1" 50] wallet_A).

Definition wallet_10_10_100 : Wallet :=
  wallet_after (ingest [coin_A "t1" 10; coin_A "t2" 10; coin_A "t3" 100] wallet_A).

(** The input the loop builds for a coin of [wallet_A] created by [tx]. *)
Definition input_A (tx : string) : Input :=
  mkInput tx 0 (Some "pubA") "signed:privA".

(** [wallet_A] with the given coins, in array order. *)
Definition wallet_A_with (cs : list Coin) : Wallet :=
  mkWallet cs (addresses wallet_A) kA.

(** An output whose address is the name of a method of [Object.prototype],
    and the coin [addUTXO] makes of it. *)
Definition utxo_toString : UTXO := mkUTXO 5 "toString".
Definition coin_toString : Coin := mkCoin utxo_toString "t0" 0.

(** The [addresses] object of [wallet_A]. *)
Definition book_A : AddressMap := addresses wallet_A.

(** ** The operations on double-precision amounts

    The same class with [number] for the amounts: a JavaScript number is an
    IEEE 754 binary64 value, [+] and [-] round to nearest, ties to even, and
    [<], [>] and [===] are the IEEE comparisons (false on NaN, and equal on
    the two zeros). *)
Module Doubles.

Definition number : Type := spec_float.

(** The literal [0]. *)
Definition zero : number := S754_zero false.

(** [x + y], [x - y] *)
Definition add (x y : number) : number := SFadd 53 1024 x y.
Definition sub (x y : number) : number := SFsub 53 1024 x y.

(** [x < y], [x > y], [x === y] *)
Definition lt (x y : number) : bool := SFltb x y.
Definition gt (x y : number) : bool := SFltb y x.
Definition strict_eq (x y : number) : bool := SFeqb x y.

(** The number an integer literal denotes: the double nearest to [z]. *)
Definition of_Z (z : Z) : number := binary_normalize 53 1024 z 0 false.

(** The integer a number denotes, when it denotes one. *)
Definition to_Z (x : number) : option Z :=
  match x with
  | S754_zero _ => Some 0
  | S754_finite s m e =>
      if 0 <=? e then Some (cond_Zopp s (Z.pos m * 2 ^ e))
      else if Z.pos m mod 2 ^ (- e) =? 0
           then Some (cond_Zopp s (Z.pos m / 2 ^ (- e)))
           else None
  | _ => None
  end.

Record UTXO : Type := mkUTXO { amount : number; address : string }.

Record Coin : Type := mkCoin { output : UTXO; txID : string; outputIndex : Z }.

Record Wallet : Type := mkWallet {
  coins : list Coin;
  addresses : AddressMap;
  kp : KeyPair
}.

Inductive Error : Type :=
| InsufficientFunds (requested available : number)
| UnknownAddress (a : string)
| TypeError
| SignError.

Inductive Outcome (A : Type) : Type :=
| Returns (w : Wallet) (a : A)
| Throws (w : Wallet) (e : Error).
Arguments Returns {A} w a.
Arguments Throws {A} w e.

Definition wallet_after {A} (r : Outcome A) : Wallet :=
  match r with Returns w _ => w | Throws w _ => w end.

(** [constructor()] *)
Definition constructor (k0 : KeyPair) : Wallet :=
  {| coins := []; addresses := empty_object; kp := k0 |}.

(** [get balance()]:
    [this.coins.reduce((acc, { output }) => acc + output.amount, 0)]. *)
Definition balance (w : Wallet) : number :=
  fold_left (fun acc c => add acc (amount (output c))) (coins w) zero.

(** [addUTXO(utxo, txID, outputIndex)] *)
Definition addUTXO (utxo : UTXO) (tx : string) (idx : Z) (w : Wallet)
  : Outcome unit :=
  if is_undefined (get (addresses w) (address utxo))
  then Throws w (UnknownAddress (address utxo))
  else Returns {| coins := {| output := utxo; txID := tx; outputIndex := idx |}
                             :: coins w;
                  addresses := addresses w;
                  kp := kp w |} tt.

(** [hasKey(address)] *)
Definition hasKey (a : string) (w : Wallet) : bool :=
  truthy (get (addresses w) a).

Record LoopState : Type := mkLoopState {
  remaining : list Coin;      (* this.coins *)
  changeAmount : number;
  collectAmount : number;
  inputs : list Input
}.

Inductive Step : Type :=
| Exit (st : LoopState)
| Break (st : LoopState)
| Continue (st : LoopState)
| Raise (e : Error) (st : LoopState).

Record Spend : Type := mkSpend { spendInputs : list Input; changeAmt : number }.

Section Primitives.

Variable sign : option string → UTXO → option string.
Variable calcAddress : string → string.

Definition make_input (book : AddressMap) (c : Coin) : Error + Input :=
  let v := get book (address (output c)) in
  if is_undefined v then inl TypeError
  else match sign (private_of v) (output c) with
       | None => inl SignError
       | Some s => inr {| inTxID := txID c;
                          inOutputIndex := outputIndex c;
                          pubKey := public_of v;
                          sig := s |}
       end.

(** The loop test [this.coins.length > 0 && collectAmount < amount]
    followed by one run of the loop body. *)
Definition loop_step (target : number) (book : AddressMap) (st : LoopState)
  : Step :=
  match last (remaining st) with
  | None => Exit st
  | Some c =>
      if lt (collectAmount st) target then
        let oldestCoinAmountFromWallet := amount (output c) in
        if gt oldestCoinAmountFromWallet target then
          let change' :=
            add (changeAmount st) (sub oldestCoinAmountFromWallet target) in
          let collect' := add (collectAmount st) target in
          let coins' := removelast (remaining st) in
          match make_input book c with
          | inl e => Raise e (mkLoopState coins' change' collect' (inputs st))
          | inr i => Break (mkLoopState coins' change' collect' (inputs st ++ [i]))
          end
        else if strict_eq oldestCoinAmountFromWallet target then
          let collect' := add (collectAmount st) target in
          let coins' := removelast (remaining st) in
          match make_input book c with
          | inl e => Raise e (mkLoopState coins' (changeAmount st) collect' (inputs st))
          | inr i => Break (mkLoopState coins' (changeAmount st) collect' (inputs st ++ [i]))
          end
        else
          let collect' := add (collectAmount st) oldestCoinAmountFromWallet in
          let coins' := removelast (remaining st) in
          match make_input book c with
          | inl e => Raise e (mkLoopState coins' (changeAmount st) collect' (inputs st))
          | inr i => Continue (mkLoopState coins' (changeAmount st) collect' (inputs st ++ [i]))
          end
      else Exit st
  end.

(** The [while] loop of [spendUTXOs]. *)
Equations spend_loop (target : number) (book : AddressMap) (st : LoopState)
  : Error * LoopState + LoopState by wf (length (remaining st)) Nat.lt :=
  spend_loop target book st with inspect (loop_step target book st) := {
    | @exist (Exit st') _ => inr st'
    | @exist (Break st') _ => inr st'
    | @exist (Raise e st') _ => inl (e, st')
    | @exist (Continue st') H => spend_loop target book st' }.
Next Obligation.
  unfold loop_step in H.
  destruct (last (remaining st)) as [c|] eqn:Hl; [|done].
  apply last_Some in Hl as [l' Hl].
  assert (length (removelast (remaining st)) < length (remaining st))%nat.
  { rewrite Hl, removelast_last, length_app. simpl. lia. }
  repeat case_match; try done; injection H as <-; done.
Qed.

(** [spendUTXOs(amount)]; [target] is the parameter [amount]. *)
Definition spendUTXOs (target : number) (w : Wallet) : Outcome Spend :=
  if gt target (balance w)
  then Throws w (InsufficientFunds target (balance w))
  else
    match spend_loop target (addresses w)
            (mkLoopState (coins w) zero zero []) with
    | inr st =>
        Returns (mkWallet (remaining st) (addresses w) (kp w))
                (mkSpend (inputs st) (changeAmount st))
    | inl (e, st) =>
        Throws (mkWallet (remaining st) (addresses w) (kp w)) e
    end.

(** [makeAddress()] *)
Definition makeAddress (k : KeyPair) (w : Wallet) : Outcome string :=
  let addr := calcAddress (public k) in
  Returns (mkWallet (coins w) (set (addresses w) addr k) (kp w)) addr.

End Primitives.

(** A sequence of [addUTXO] calls, one per element of [l] and in that order,
    stopping at the first one that throws. *)
Fixpoint ingest (l : list Coin) (w : Wallet) : Outcome unit :=
  match l with
  | [] => Returns w tt
  | c :: l' =>
      match addUTXO (output c) (txID c) (outputIndex c) w with
      | Returns w' _ => ingest l' w'
      | Throws w' e => Throws w' e
      end
  end.

(** [spends sign book c i]: [i] is the input the loop builds for [c]. *)
Definition spends (sign : option string → UTXO → option string)
  (book : AddressMap) (c : Coin) (i : Input) : Prop :=
  make_input sign book c = inr i.

(** The value of [collectAmount] after the loop has taken the coins [l],
    oldest first, through its last branch ([collectAmount += amount of the
    coin]), starting from [acc]; the loop starts from 0. *)
Definition collected_from (acc : number) (l : list Coin) : number :=
  fold_left (fun acc c => add acc (amount (output c))) l acc.

Definition collected (l : list Coin) : number := collected_from zero l.

(** The coin sends the loop body to its last branch: its amount is neither
    greater than nor equal to the requested amount.  For numbers other than
    NaN this is [amount < target] (Lemma [small_lt]). *)
Definition small (target : number) (c : Coin) : Prop :=
  gt (amount (output c)) target = false ∧
  strict_eq (amount (output c)) target = false.

(** The coin sends the loop body to one of the two branches that end in
    [break]: its amount is greater than or equal to the requested amount. *)
Definition reaches (target : number) (c : Coin) : Prop :=
  gt (amount (output c)) target = true ∨
  strict_eq (amount (output c)) target = true.

(** Whether the additions of a left-to-right sum of [l] started at [acc]
    are all exact: every operand and every partial sum denotes an integer,
    and each partial sum denotes the sum of its operands. *)
Fixpoint exact_steps (acc : number) (l : list number) : bool :=
  match l with
  | [] => true
  | a :: l' =>
      match to_Z acc, to_Z a, to_Z (add acc a) with
      | Some x, Some y, Some z => (z =? x + y) && exact_steps (add acc a) l'
      | _, _, _ => false
      end
  end.

(** The sum of the integers the numbers of [l] denote. *)
Fixpoint int_sum (l : list number) : option Z :=
  match l with
  | [] => Some 0
  | a :: l' =>
      match to_Z a, int_sum l' with
      | Some y, Some s => Some (y + s)
      | _, _ => None
      end
  end.

(** The amounts of a list of coins. *)
Definition amounts (l : list Coin) : list number :=
  map (fun c => amount (output c)) l.

(** Concrete primitives and wallets. *)
Definition toy_sign (priv : option string) (u : UTXO) : option string :=
  match priv with
  | Some k => Some ("signed:" ++ k)%string
  | None => None
  end.

Definition coin_A (tx : string) (a : Z) : Coin :=
  mkCoin (mkUTXO (of_Z a) "addr:pubA") tx 0.

(** A wallet with one minted address, ["addr:pubA"], holding the given
    coins in array order. *)
Definition wallet_A_with (cs : list Coin) : Wallet :=
  mkWallet cs book_A kA.

(** Coins of 10, 10 and 100, ingested in that order. *)
Definition wallet_10_10_100 : Wallet :=
  wallet_A_with [coin_A "t3" 100; coin_A "t2" 10; coin_A "t1" 10].

(** Coins of 1, 1 and 2^53, ingested in that order. *)
Definition wallet_1_1_big : Wallet :=
  wallet_A_with [coin_A "t3" 9007199254740992; coin_A "t2" 1; coin_A "t1" 1].

End Doubles.

(** ** Sums of amounts *)

Lemma sum_amounts_app l1 l2 :
  sum_amounts (l1 ++ l2) = sum_amounts l1 + sum_amounts l2.
Proof.
  induction l1 as [|c l1 IH]; simpl; [done|]. rewrite IH. lia.
Qed.

Lemma sum_amounts_rev l : sum_amounts (rev l) = sum_amounts l.
Proof.
  induction l as [|c l IH]; simpl; [done|].
  rewrite sum_amounts_app, IH. simpl. lia.
Qed.

Lemma reduce_sum l acc :
  fold_left (fun acc c => acc + amount (output c)) l acc = acc + sum_amounts l.
Proof.
  revert acc. induction l as [|c l IH]; intros acc; simpl; [lia|].
  rewrite IH. lia.
Qed.

Lemma balance_sum w : balance w = sum_amounts (coins w).
Proof. unfold balance. by rewrite reduce_sum. Qed.

Lemma sum_amounts_nonneg l :
  Forall (fun c => 0 <= amount (output c)) l → 0 <= sum_amounts l.
Proof.
  induction 1 as [|c l Hc _ IH]; simpl; lia.
Qed.

(** ** The selection loop *)

Section Properties.

(** The external primitives, as in the definitions above. *)
Variable sign : option string → UTXO → option string.
Variable calcAddress : string → string.

Lemma spend_loop_step target book st :
  spend_loop sign target book st =
  match loop_step sign target book st with
  | Exit st' => inr st'
  | Break st' => inr st'
  | Raise e st' => inl (e, st')
  | Continue st' => spend_loop sign target book st'
  end.
Proof.
  funelim (spend_loop sign target book st);
    match goal with E : loop_step _ _ _ _ = _ |- _ => rewrite E end;
    reflexivity.
Qed.

Lemma loop_step_nil target book change collect ins :
  loop_step sign target book (mkLoopState [] change collect ins)
  = Exit (mkLoopState [] change collect ins).
Proof. reflexivity. Qed.

(** One step on a non-empty array, with the oldest coin [c] made explicit. *)
Lemma loop_step_snoc target book rest c change collect ins :
  loop_step sign target book (mkLoopState (rest ++ [c]) change collect ins) =
  if collect <? target then
    if amount (output c) >? target then
      match make_input sign book c with
      | inl e => Raise e (mkLoopState rest (change + (amount (output c) - target))
                                      (collect + target) ins)
      | inr i => Break (mkLoopState rest (change + (amount (output c) - target))
                                    (collect + target) (ins ++ [i]))
      end
    else if amount (output c) =? target then
      match make_input sign book c with
      | inl e => Raise e (mkLoopState rest change (collect + target) ins)
      | inr i => Break (mkLoopState rest change (collect + target) (ins ++ [i]))
      end
    else
      match make_input sign book c with
      | inl e => Raise e (mkLoopState rest change (collect + amount (output c)) ins)
      | inr i => Continue (mkLoopState rest change (collect + amount (output c))
                                       (ins ++ [i]))
      end
  else Exit (mkLoopState (rest ++ [c]) change collect ins).
Proof.
  unfold loop_step. simpl. rewrite last_snoc, removelast_last. reflexivity.
Qed.

(** The loop when it ends normally: the coins [consumed], oldest first,
    were popped one after the other and their inputs pushed in that order;
    either the last of them reaches the requested amount and ended the
    loop by [break], or all are below it and the loop test failed. *)
Lemma spend_loop_returns target book cs :
  ∀ change collect ins st',
    spend_loop sign target book (mkLoopState cs change collect ins) = inr st' →
    ∃ consumed new,
      cs = remaining st' ++ rev consumed ∧
      inputs st' = ins ++ new ∧
      Forall2 (spends sign book) consumed new ∧
      ((∃ pre c,
           consumed = pre ++ [c] ∧
           Forall (below target) pre ∧
           target <= amount (output c) ∧
           collect + sum_amounts pre < target ∧
           changeAmount st' = change + (amount (output c) - target) ∧
           collectAmount st' = collect + sum_amounts pre + target)
       ∨ (Forall (below target) consumed ∧
          changeAmount st' = change ∧
          collectAmount st' = collect + sum_amounts consumed ∧
          (remaining st' = [] ∨ target <= collectAmount st'))).
Proof.
  induction cs as [|c rest IH] using rev_ind; intros change collect ins st'.
  - rewrite spend_loop_step, loop_step_nil. intros [= <-].
    exists [], []. simpl. rewrite app_nil_r.
    repeat split; [constructor|]. right.
    repeat split; [constructor|lia|by left].
  - rewrite spend_loop_step, loop_step_snoc.
    destruct (Z.ltb_spec collect target) as [Hlt|Hge].
    2:{ intros [= <-]. exists [], []. simpl. rewrite !app_nil_r.
        repeat split; [constructor|]. right.
        repeat split; [constructor|lia|right; lia]. }
    rewrite Z.gtb_ltb.
    destruct (Z.ltb_spec target (amount (output c))) as [Hgt|Hle].
    { destruct (make_input sign book c) as [e|i] eqn:Hi; [done|].
      intros [= <-]. exists [c], [i]. simpl.
      repeat split; [by repeat constructor|]. left.
      exists [], c. simpl. repeat split; [constructor|lia|lia|lia]. }
    destruct (Z.eqb_spec (amount (output c)) target) as [Heq|Hne].
    { destruct (make_input sign book c) as [e|i] eqn:Hi; [done|].
      intros [= <-]. exists [c], [i]. simpl.
      repeat split; [by repeat constructor|]. left.
      exists [], c. simpl. repeat split; [constructor|lia|lia|lia|lia]. }
    destruct (make_input sign book c) as [e|i] eqn:Hi; [done|].
    intros Hrun. apply IH in Hrun as (consumed & new & -> & Hins & Hsp & Hend).
    exists (c :: consumed), (i :: new). simpl.
    split; [by rewrite app_assoc|].
    split; [by rewrite Hins, <- app_assoc|].
    split; [by constructor|].
    assert (Hc : below target c) by (unfold below; lia).
    destruct Hend as [(pre & c' & -> & Hpre & Hc' & Hcol & Hch & Hsum)
                     |(Hall & Hch & Hsum & Hstop)].
    + left. exists (c :: pre), c'. simpl.
      repeat split; [by constructor|lia|lia|lia|lia].
    + right. repeat split; [by constructor|lia|lia|done].
Qed.

(** The loop when it throws: the coin [c] had been popped and building
    its input raised [e]; the coins before it were consumed as usual. *)
Lemma spend_loop_throws target book cs :
  ∀ change collect ins e st',
    spend_loop sign target book (mkLoopState cs change collect ins)
      = inl (e, st') →
    ∃ consumed c new,
      cs = remaining st' ++ [c] ++ rev consumed ∧
      make_input sign book c = inl e ∧
      inputs st' = ins ++ new ∧
      Forall2 (spends sign book) consumed new ∧
      Forall (below target) consumed ∧
      collect + sum_amounts consumed < target.
Proof.
  induction cs as [|c rest IH] using rev_ind; intros change collect ins e st'.
  - rewrite spend_loop_step, loop_step_nil. done.
  - rewrite spend_loop_step, loop_step_snoc.
    destruct (Z.ltb_spec collect target) as [Hlt|Hge]; [|done].
    destruct (amount (output c) >? target) eqn:Hgt.
    { destruct (make_input sign book c) as [e'|i] eqn:Hi; [|done].
      intros [= <- <-]. exists [], c, []. simpl. rewrite app_nil_r.
      repeat split; [done|constructor|constructor|lia]. }
    destruct (Z.eqb_spec (amount (output c)) target) as [Heq|Hne].
    { destruct (make_input sign book c) as [e'|i] eqn:Hi; [|done].
      intros [= <- <-]. exists [], c, []. simpl. rewrite app_nil_r.
      repeat split; [done|constructor|constructor|lia]. }
    destruct (make_input sign book c) as [e'|i] eqn:Hi.
    { intros [= <- <-]. exists [], c, []. simpl. rewrite app_nil_r.
      repeat split; [done|constructor|constructor|lia]. }
    intros Hrun.
    apply IH in Hrun
      as (consumed & c' & new & -> & Hc' & Hins & Hsp & Hall & Hsum).
    exists (c :: consumed), c', (i :: new). simpl.
    split; [by rewrite <- !app_assoc|].
    split; [done|].
    split; [by rewrite Hins, <- app_assoc|].
    rewrite Z.gtb_ltb, Z.ltb_ge in Hgt.
    split; [by constructor|].
    split; [constructor; [unfold below; lia|done]|lia].
Qed.

(** The loop does not throw when the input of every coin can be built. *)
Lemma spend_loop_no_throw target book cs change collect ins :
  Forall (fun c => can_spend sign book c = true) cs →
  ∃ st', spend_loop sign target book (mkLoopState cs change collect ins)
         = inr st'.
Proof.
  intros Hall.
  destruct (spend_loop sign target book (mkLoopState cs change collect ins))
    as [[e st']|st'] eqn:Hrun; [|by exists st'].
  apply spend_loop_throws in Hrun as (consumed & c & new & -> & Hc & _).
  rewrite !Forall_app, Forall_singleton in Hall.
  destruct Hall as (_ & Hcan & _). unfold can_spend in Hcan.
  by rewrite Hc in Hcan.
Qed.

(** ** [spendUTXOs] *)

Lemma spendUTXOs_enough target w :
  target <= balance w →
  spendUTXOs sign target w =
  match spend_loop sign target (addresses w) (mkLoopState (coins w) 0 0 []) with
  | inr st => Returns (mkWallet (remaining st) (addresses w) (kp w))
                      (mkSpend (inputs st) (changeAmount st))
  | inl (e, st) => Throws (mkWallet (remaining st) (addresses w) (kp w)) e
  end.
Proof.
  intros Hle. unfold spendUTXOs.
  rewrite Z.gtb_ltb. by destruct (Z.ltb_spec (balance w) target); [lia|].
Qed.



(** C9.  When no coin has a negative amount, [spendUTXOs(0)] returns, with
    no input and no change, and leaves the wallet as it was. *)
Theorem C9_spend_zero w :
  Forall (fun c => 0 <= amount (output c)) (coins w) →
  spendUTXOs sign 0 w = Returns w (mkSpend [] 0).
Proof.
  intros Hpos. apply sum_amounts_nonneg in Hpos. rewrite <- balance_sum in Hpos.
  rewrite spendUTXOs_enough by done.
  rewrite spend_loop_step.
  assert (loop_step sign 0 (addresses w) (mkLoopState (coins w) 0 0 [])
          = Exit (mkLoopState (coins w) 0 0 [])) as ->.
  { unfold loop_step. simpl. by destruct (last (coins w)). }
  simpl. by destruct w.
Qed.


(** The call returns when the request is within the balance and the input
    of every coin held can be built. *)
Lemma spendUTXOs_returns target w :
  target <= balance w →
  Forall (fun c => can_spend sign (addresses w) c = true) (coins w) →
  ∃ w' r, spendUTXOs sign target w = Returns w' r.
Proof.
  intros Hbal Hall. rewrite spendUTXOs_enough by done.
  destruct (spend_loop_no_throw target (addresses w) (coins w) 0 0 [] Hall)
    as [st' ->].
  by eexists _, _.
Qed.

(** Each input carries the transaction ID and the output index of its coin. *)
Lemma spends_reference book c i :
  spends sign book c i → inTxID i = txID c ∧ inOutputIndex i = outputIndex c.
Proof.
  unfold spends, make_input.
  destruct (is_undefined _); [done|].
  destruct (sign _ _); [|done]. by intros [= <-].
Qed.

(** ** [addUTXO] and [balance] *)

Lemma addUTXO_Returns_inv utxo tx idx w w' u :
  addUTXO utxo tx idx w = Returns w' u →
  get (addresses w) (address utxo) ≠ VUndefined ∧
  w' = mkWallet (mkCoin utxo tx idx :: coins w) (addresses w) (kp w).
Proof.
  unfold addUTXO.
  destruct (get (addresses w) (address utxo)) eqn:Hget; simpl; [done|..];
    by intros [= <-].
Qed.

Lemma ingest_Returns_inv l :
  ∀ w w' u,
    ingest l w = Returns w' u →
    coins w' = rev l ++ coins w ∧ addresses w' = addresses w ∧ kp w' = kp w.
Proof.
  induction l as [|c l IH]; intros w w' u; simpl.
  - by intros [= <-].
  - destruct (addUTXO _ _ _ w) as [w1 []|w1 e] eqn:Hadd; [|done].
    apply addUTXO_Returns_inv in Hadd as [_ ->].
    intros (-> & -> & ->)%IH. simpl.
    rewrite <- app_assoc. by destruct c.
Qed.

(** ** The [addresses] object *)

Lemma object_prototype_off_chain a :
  a ∉ object_prototype_names → object_prototype a = VUndefined.
Proof.
  intros Ha. unfold object_prototype. by rewrite bool_decide_eq_false_2.
Qed.

Lemma object_prototype_not_key_pair a k : object_prototype a ≠ VKeyPair k.
Proof. unfold object_prototype. by case_bool_decide. Qed.

Lemma get_set_eq o a k : get (set o a k) a = VKeyPair k.
Proof.
  unfold set. destruct (decide _) as [[-> Hown]|_]; unfold get; simpl.
  - by rewrite Hown.
  - by rewrite lookup_insert_eq.
Qed.

(** A registered address stays registered when a key pair is stored. *)
Lemma registered_set o a k b : registered o b → registered (set o a k) b.
Proof.
  intros [kb Hb].
  destruct (decide (b = a)) as [->|Hne]; [exists k; apply get_set_eq|].
  unfold set. destruct (decide _) as [[-> Hown]|_].
  - revert Hb. unfold registered, get. simpl.
    destruct (own o !! b) as [k'|]; [by exists k'|].
    destruct (proto o) as [k0|]; repeat case_match; intros Hb;
      try done; try (by eexists); by apply object_prototype_not_key_pair in Hb.
  - exists kb. revert Hb. unfold get. simpl. by rewrite lookup_insert_ne.
Qed.

(** A name that has a value keeps having one when a key pair is stored. *)
Lemma defined_set o a k b :
  get o b ≠ VUndefined → get (set o a k) b ≠ VUndefined.
Proof.
  intros Hb.
  destruct (decide (b = a)) as [->|Hne]; [by rewrite get_set_eq|].
  unfold set. destruct (decide _) as [[-> Hown]|_].
  - revert Hb. unfold get. simpl. destruct (own o !! b) as [k'|]; [done|].
    destruct (proto o) as [k0|]; repeat case_match; done.
  - revert Hb. unfold get. simpl. by rewrite lookup_insert_ne.
Qed.

(** Off the prototype chain, a name has a value only if it is registered. *)
Lemma get_off_chain o a :
  a ∉ chain_names → get o a = VUndefined ∨ registered o a.
Proof.
  intros Ha. unfold chain_names in Ha. rewrite elem_of_app in Ha.
  assert (a ∉ object_prototype_names) as Hobj by tauto.
  assert (a ≠ "public" ∧ a ≠ "private") as [Hpub Hpriv].
  { split; intros ->; apply Ha; right; set_solver. }
  assert (a ≠ "__proto__") as Hproto.
  { intros ->. apply Hobj. unfold object_prototype_names. set_solver. }
  unfold registered, get. destruct (own o !! a) as [k'|]; [right; by exists k'|].
  left. destruct (proto o); repeat case_match; try done;
    by apply object_prototype_off_chain.
Qed.

Lemma spendUTXOs_addresses target w :
  addresses (wallet_after (spendUTXOs sign target w)) = addresses w.
Proof.
  unfold spendUTXOs. destruct (target >? balance w); [done|].
  by destruct (spend_loop _ _ _ _) as [[e st']|st'].
Qed.

(** Whatever its outcome, [spendUTXOs] keeps a prefix of the array. *)
Lemma spendUTXOs_coins target w :
  ∃ gone, coins w = coins (wallet_after (spendUTXOs sign target w)) ++ gone.
Proof.
  unfold spendUTXOs. destruct (target >? balance w).
  { exists []. by rewrite app_nil_r. }
  destruct (spend_loop _ _ _ _) as [[e st']|st'] eqn:Hrun.
  - apply spend_loop_throws in Hrun as (consumed & c & new & -> & _).
    by eexists.
  - apply spend_loop_returns in Hrun as (consumed & new & -> & _).
    by eexists.
Qed.

Lemma addUTXO_addresses utxo tx idx w :
  addresses (wallet_after (addUTXO utxo tx idx w)) = addresses w.
Proof. unfold addUTXO. by destruct (is_undefined _). Qed.

(** No operation takes a registered address out of [addresses]. *)
Lemma registered_run_op w o b :
  registered (addresses w) b →
  registered (addresses (run_op sign calcAddress w o)) b.
Proof.
  intros Hb. destruct o as [|utxo tx idx|target|k|a]; simpl; try done.
  - by rewrite addUTXO_addresses.
  - by rewrite spendUTXOs_addresses.
  - by apply registered_set.
Qed.

Lemma registered_run_ops ops :
  ∀ w b, registered (addresses w) b →
         registered (addresses (run_ops sign calcAddress w ops)) b.
Proof.
  induction ops as [|o ops IH]; intros w b Hb; simpl; [done|].
  by apply IH, registered_run_op.
Qed.

(** ** [makeAddress] and [hasKey] *)

(** [hasKey] answers true for the address [makeAddress()] has just returned,
    and keeps doing so whatever is called afterwards. *)
Lemma hasKey_makeAddress k w ops :
  hasKey (calcAddress (public k))
         (run_ops sign calcAddress (wallet_after (makeAddress calcAddress k w)) ops)
  = true.
Proof.
  assert (registered
            (addresses (run_ops sign calcAddress
                          (wallet_after (makeAddress calcAddress k w)) ops))
            (calcAddress (public k))) as [k' Hk'].
  { apply registered_run_ops. simpl. exists k. apply get_set_eq. }
  unfold hasKey. by rewrite Hk'.
Qed.

(** [hasKey] answers false for an address that was never minted, provided
    it is not a name of [Object.prototype] and the address ["__proto__"]
    was never minted either. *)
Lemma hasKey_not_minted k0 ops a :
  a ∉ minted calcAddress ops →
  "__proto__" ∉ minted calcAddress ops →
  a ∉ object_prototype_names →
  hasKey a (run_ops sign calcAddress (constructor k0) ops) = false.
Proof.
  intros Ha Hp Hobj.
  cut (∀ w, own (addresses w) !! a = None → proto (addresses w) = None →
            hasKey a (run_ops sign calcAddress w ops) = false).
  { intros H. by apply H. }
  induction ops as [|o ops IH]; intros w Hown Hproto.
  - unfold hasKey, get. simpl. rewrite Hown, Hproto.
    by rewrite object_prototype_off_chain.
  - simpl in Ha, Hp. rewrite elem_of_app in Ha, Hp. simpl.
    apply IH; [tauto|tauto|..];
      destruct o as [|utxo tx idx|target|k|b]; simpl; try done;
      rewrite ?addUTXO_addresses, ?spendUTXOs_addresses; try done.
    + unfold set. destruct (decide _) as [[Heq _]|_]; simpl.
      * exfalso. apply Hp. left. rewrite Heq. set_solver.
      * rewrite lookup_insert_ne; [done|]. intros <-. apply Ha. left. set_solver.
    + unfold set. destruct (decide _) as [[Heq _]|_]; simpl; [|done].
      exfalso. apply Hp. left. rewrite Heq. set_solver.
Qed.

(** ** Coins and their keys *)

(** [addUTXO] throws, and changes nothing, when [addresses] has no value
    for the address of the output. *)
Lemma addUTXO_undefined utxo tx idx w :
  get (addresses w) (address utxo) = VUndefined →
  addUTXO utxo tx idx w = Throws w (UnknownAddress (address utxo)).
Proof. intros Hget. unfold addUTXO. by rewrite Hget. Qed.

(** Off the prototype chain, [addUTXO] throws for an unregistered address. *)
Lemma addUTXO_unregistered utxo tx idx w :
  address utxo ∉ chain_names →
  ¬ registered (addresses w) (address utxo) →
  addUTXO utxo tx idx w = Throws w (UnknownAddress (address utxo)).
Proof.
  intros Hchain Hreg. apply addUTXO_undefined.
  by destruct (get_off_chain (addresses w) _ Hchain).
Qed.

(** What the code maintains: the address of every coin held has a value in
    [addresses], so that the loop of [spendUTXOs] never reads a property of
    [undefined]. *)
Lemma coins_defined_run_op w o :
  coins_defined w → coins_defined (run_op sign calcAddress w o).
Proof.
  unfold coins_defined. intros Hw.
  destruct o as [|utxo tx idx|target|k|a]; simpl; try done.
  - unfold addUTXO.
    destruct (get (addresses w) (address utxo)) eqn:Hget; simpl; try done;
      constructor; simpl; try done; by rewrite Hget.
  - rewrite spendUTXOs_addresses.
    destruct (spendUTXOs_coins target w) as [gone Hgone].
    rewrite Hgone, Forall_app in Hw. tauto.
  - eapply Forall_impl; [exact Hw|]. intros c Hc. by apply defined_set.
Qed.

Lemma coins_defined_run_ops k0 ops :
  coins_defined (run_ops sign calcAddress (constructor k0) ops).
Proof.
  cut (∀ w, coins_defined w → coins_defined (run_ops sign calcAddress w ops)).
  { intros H. apply H. constructor. }
  induction ops as [|o ops IH]; intros w Hw; simpl; [done|].
  by apply IH, coins_defined_run_op.
Qed.

(** Every coin held has a registered key pair as long as no output whose
    address is a name of the prototype chain was ingested. *)
Lemma coins_registered_run_ops k0 ops :
  Forall (fun a => a ∉ chain_names) (ingested ops) →
  coins_registered (run_ops sign calcAddress (constructor k0) ops).
Proof.
  cut (∀ w, Forall (fun a => a ∉ chain_names) (ingested ops) →
            coins_registered w →
            coins_registered (run_ops sign calcAddress w ops)).
  { intros H Hops. apply H; [done|constructor]. }
  unfold coins_registered.
  induction ops as [|o ops IH]; intros w Hops Hw; simpl; [done|].
  simpl in Hops. rewrite Forall_app in Hops. destruct Hops as [Ho Hops].
  apply IH; [done|].
  destruct o as [|utxo tx idx|target|k|a]; simpl; try done.
  - rewrite Forall_singleton in Ho.
    destruct (get_off_chain (addresses w) _ Ho) as [Hun|Hreg].
    + by rewrite addUTXO_undefined.
    + unfold addUTXO. destruct Hreg as [k Hk]. rewrite Hk. simpl.
      constructor; [|done]. simpl. by exists k.
  - rewrite spendUTXOs_addresses.
    destruct (spendUTXOs_coins target w) as [gone Hgone].
    rewrite Hgone, Forall_app in Hw. tauto.
  - eapply Forall_impl; [exact Hw|]. intros c Hc. by apply registered_set.
Qed.

End Properties.

(** ** The operations on concrete wallets *)

(** One coin of 50 and the request 50: one input, no change, no coin left. *)
Example spend_exact_match :
  spendUTXOs toy_sign 50 wallet_50
    = Returns (wallet_A_with []) (mkSpend [input_A "t1"] 0) ∧
  balance (wallet_A_with []) = 0.
Proof. split; vm_compute; reflexivity. Qed.

(** Coins of 10, 10 and 100 and the request 120: every coin is below the
    request, all three are consumed in order of arrival, no change. *)
Example spend_all_coins :
  spendUTXOs toy_sign 120 wallet_10_10_100
    = Returns (wallet_A_with [])
              (mkSpend [input_A "t1"; input_A "t2"; input_A "t3"] 0).
Proof. vm_compute; reflexivity. Qed.

(** The same coins and the request 10: the oldest coin alone is taken. *)
Example spend_oldest_only :
  spendUTXOs toy_sign 10 wallet_10_10_100
    = Returns (wallet_A_with [coin_A "t3" 100; coin_A "t2" 10])
              (mkSpend [input_A "t1"] 0).
Proof. vm_compute; reflexivity. Qed.

(** [hasKey] on the wallet with one minted address. *)
Example hasKey_wallet_A :
  hasKey "addr:pubA" wallet_A = true ∧ hasKey "addr:pubB" wallet_A = false.
Proof. split; vm_compute; reflexivity. Qed.


Lemma C9_spend_zero_witness :
  Forall (fun c => 0 <= amount (output c)) (coins wallet_10_10_100) ∧
  spendUTXOs toy_sign 0 wallet_10_10_100
    = Returns wallet_10_10_100 (mkSpend [] 0).
Proof.
  assert (H : Forall (fun c => 0 <= amount (output c)) (coins wallet_10_10_100)).
  { apply (bool_decide_unpack _). vm_compute. exact I. }
  split; [exact H|].
  apply (C9_spend_zero toy_sign wallet_10_10_100 H).
Defined.



(** ** Addresses that name a property of [Object.prototype] *)

(** C4.  On a new wallet, where no address is registered, [addUTXO] of an
    output whose address is ["toString"] does not throw: the read
    [this.addresses["toString"]] finds the method inherited from
    [Object.prototype], which is not [undefined], and the coin is stored. *)
Theorem C4_addUTXO_inherited_name :
  ¬ registered (addresses (constructor kA)) (address utxo_toString) ∧
  addUTXO utxo_toString "t0" 0 (constructor kA)
    = Returns (mkWallet [coin_toString] empty_object kA) tt ∧
  balance (mkWallet [coin_toString] empty_object kA) = 5.
Proof.
  split; [|split; vm_compute; reflexivity].
  intros [k Hk]. vm_compute in Hk. discriminate.
Qed.

(** C7.  After that call the wallet holds a coin whose address has no key
    pair in [addresses]: the invariant is broken by [addUTXO]. *)
Theorem C7_coin_without_key :
  coins_registered (constructor kA) ∧
  ¬ coins_registered
      (run_op toy_sign toy_calcAddress (constructor kA)
              (OpAddUTXO utxo_toString "t0" 0)).
Proof.
  split; [constructor|].
  assert (run_op toy_sign toy_calcAddress (constructor kA)
                 (OpAddUTXO utxo_toString "t0" 0)
          = mkWallet [coin_toString] empty_object kA) as ->
    by (vm_compute; reflexivity).
  unfold coins_registered. simpl. rewrite Forall_singleton.
  intros [k Hk]. vm_compute in Hk. discriminate.
Qed.

(** C8.  On a new wallet, on which [makeAddress()] was never called,
    [hasKey("toString")] answers true. *)
Theorem C8_hasKey_inherited_name :
  minted toy_calcAddress [] = [] ∧
  hasKey "toString" (run_ops toy_sign toy_calcAddress (constructor kA) []) = true.
Proof. split; reflexivity. Qed.

(** ** Further properties of the operations *)

Lemma sum_amounts_positive_nil l :
  Forall (fun c => 0 < amount (output c)) l → sum_amounts l <= 0 → l = [].
Proof.
  destruct 1 as [|c l Hc Hl]; [done|]. simpl. intros Hsum.
  assert (0 <= sum_amounts l); [|lia].
  apply sum_amounts_nonneg. eapply Forall_impl; [exact Hl|]. simpl. lia.
Qed.

Lemma Forall_rev_iff {A} (P : A → Prop) (l : list A) :
  Forall P (rev l) ↔ Forall P l.
Proof.
  split; intros H; [rewrite <- (rev_involutive l)|]; by apply List.Forall_rev.
Qed.

Section MoreProperties.

Variable sign : option string → UTXO → option string.
Variable calcAddress : string → string.

(** Building an input fails in two ways only. *)
Lemma make_input_error book c e :
  make_input sign book c = inl e →
  (e = TypeError ∧ get book (address (output c)) = VUndefined) ∨ e = SignError.
Proof.
  unfold make_input.
  destruct (get book (address (output c))) eqn:Hget; simpl;
    try (destruct (sign _ _); [done|]; intros [= <-]; by right).
  intros [= <-]. by left.
Qed.


(** X1.  [makeAddress()] returns the address derived from the public key of
    the new key pair, and from then on [hasKey] answers true for that
    address, whatever operations are called in between. *)
Theorem X1_minted_address_is_known k w ops :
  ∃ w1, makeAddress calcAddress k w = Returns w1 (calcAddress (public k)) ∧
        hasKey (calcAddress (public k)) (run_ops sign calcAddress w1 ops) = true.
Proof.
  eexists. split; [reflexivity|]. apply (hasKey_makeAddress sign calcAddress k w ops).
Qed.

(** X2.  On a wallet built by any sequence of operations from a new one,
    [spendUTXOs] never fails on a property read of [undefined]: it returns,
    or throws the insufficient-funds error and leaves the wallet as it
    was, or propagates a failure of [utils.sign]. *)
Theorem X2_spend_on_reachable_wallet k0 ops target :
  (∃ w' r, spendUTXOs sign target (run_ops sign calcAddress (constructor k0) ops)
           = Returns w' r) ∨
  spendUTXOs sign target (run_ops sign calcAddress (constructor k0) ops)
    = Throws (run_ops sign calcAddress (constructor k0) ops)
             (InsufficientFunds target
                (balance (run_ops sign calcAddress (constructor k0) ops))) ∨
  (∃ w', spendUTXOs sign target (run_ops sign calcAddress (constructor k0) ops)
         = Throws w' SignError).
Proof.
  pose proof (coins_defined_run_ops sign calcAddress k0 ops) as Hdef.
  set (w := run_ops sign calcAddress (constructor k0) ops) in *.
  unfold spendUTXOs. destruct (target >? balance w); [by right; left|].
  destruct (spend_loop _ _ _ _) as [[e st']|st'] eqn:Hrun; [|left; by eexists _, _].
  right. right.
  apply spend_loop_throws in Hrun as (consumed & c & new & Hcs & Hc & _).
  apply make_input_error in Hc as [[_ Hun]| ->]; [|by eexists].
  unfold coins_defined in Hdef. rewrite Hcs, !Forall_app, Forall_singleton in Hdef.
  by destruct Hdef as (_ & Hc & _).
Qed.

(** X3.  When [hasKey] answers true for the address of an output, [addUTXO]
    accepts it: the coin is put at index 0 of the array, in front of the
    coins held, and nothing else changes. *)
Theorem X3_hasKey_then_addUTXO utxo tx idx w :
  hasKey (address utxo) w = true →
  addUTXO utxo tx idx w
    = Returns (mkWallet (mkCoin utxo tx idx :: coins w) (addresses w) (kp w)) tt.
Proof.
  unfold hasKey, addUTXO. intros Hkey.
  by destruct (get (addresses w) (address utxo)).
Qed.

(** X4.  For an address that is no name of the prototype chain and has no
    key pair registered, [hasKey] answers false and [addUTXO] throws the
    unknown-address error, leaving the wallet as it was. *)
Theorem X4_unknown_address_rejected utxo tx idx w :
  address utxo ∉ chain_names →
  ¬ registered (addresses w) (address utxo) →
  hasKey (address utxo) w = false ∧
  addUTXO utxo tx idx w = Throws w (UnknownAddress (address utxo)).
Proof.
  intros Hchain Hreg.
  destruct (get_off_chain (fun a => a) (addresses w) _ Hchain) as [Hun|]; [|done].
  unfold hasKey, addUTXO. by rewrite Hun.
Qed.

(** X5.  As long as no ingested output has an address that is a name of the
    prototype chain, every coin of a wallet built from a new one has a key
    pair registered for its address, and the input built for it carries the
    public key of that pair and the signature made with its private key. *)
Theorem X5_coins_have_keys k0 ops :
  Forall (fun a => a ∉ chain_names) (ingested ops) →
  Forall (fun c =>
            ∃ k, get (addresses (run_ops sign calcAddress (constructor k0) ops))
                     (address (output c)) = VKeyPair k ∧
                 ∀ i, spends sign
                        (addresses (run_ops sign calcAddress (constructor k0) ops))
                        c i →
                      pubKey i = Some (public k) ∧
                      sign (Some (private k)) (output c) = Some (sig i))
         (coins (run_ops sign calcAddress (constructor k0) ops)).
Proof.
  intros Hops.
  pose proof (coins_registered_run_ops sign calcAddress k0 ops Hops) as Hreg.
  eapply Forall_impl; [exact Hreg|]. intros c [k Hk]. exists k.
  split; [done|]. intros i. unfold spends, make_input. rewrite Hk. simpl.
  destruct (sign _ _) as [s|]; [|done]. by intros [= <-].
Qed.

(** On a wallet built from a new one, an address that was never minted and
    is no name of [Object.prototype] has no value in [addresses], provided
    ["__proto__"] was never minted. *)
Lemma get_not_minted k0 ops a :
  a ∉ minted calcAddress ops →
  "__proto__" ∉ minted calcAddress ops →
  a ∉ object_prototype_names →
  get (addresses (run_ops sign calcAddress (constructor k0) ops)) a = VUndefined.
Proof.
  intros Ha Hp Hobj.
  cut (∀ w, own (addresses w) !! a = None → proto (addresses w) = None →
            get (addresses (run_ops sign calcAddress w ops)) a = VUndefined).
  { intros H. by apply H. }
  induction ops as [|o ops IH]; intros w Hown Hproto.
  - unfold get. simpl. rewrite Hown, Hproto.
    by apply object_prototype_off_chain.
  - simpl in Ha, Hp. rewrite elem_of_app in Ha, Hp. simpl.
    apply IH; [tauto|tauto|..];
      destruct o as [|utxo tx idx|target|k|b]; simpl; try done;
      rewrite ?addUTXO_addresses, ?spendUTXOs_addresses; try done.
    + unfold set. destruct (decide _) as [[Heq _]|_]; simpl.
      * exfalso. apply Hp. left. rewrite Heq. set_solver.
      * rewrite lookup_insert_ne; [done|]. intros <-. apply Ha. left. set_solver.
    + unfold set. destruct (decide _) as [[Heq _]|_]; simpl; [|done].
      exfalso. apply Hp. left. rewrite Heq. set_solver.
Qed.

(** X6.  On a wallet built from a new one, [hasKey] answers false for an
    address that no [makeAddress()] call returned, provided the address is
    no name of [Object.prototype] and ["__proto__"] was never minted; such
    an address is not accepted by [addUTXO] either. *)
Theorem X6_never_minted_is_unknown k0 ops a amt tx idx :
  a ∉ minted calcAddress ops →
  "__proto__" ∉ minted calcAddress ops →
  a ∉ object_prototype_names →
  hasKey a (run_ops sign calcAddress (constructor k0) ops) = false ∧
  addUTXO (mkUTXO amt a) tx idx (run_ops sign calcAddress (constructor k0) ops)
    = Throws (run_ops sign calcAddress (constructor k0) ops) (UnknownAddress a).
Proof.
  intros Ha Hp Hobj.
  pose proof (get_not_minted k0 ops a Ha Hp Hobj) as Hget.
  unfold hasKey, addUTXO. simpl. by rewrite Hget.
Qed.


(** X11.  Mint, ingest, spend: on a wallet without coins, after
    [makeAddress()] has registered the key pair [k], an output of positive
    amount at the minted address is accepted by [addUTXO], and spending
    exactly its amount returns one input, which carries the public key of
    [k] and the signature made with the private key of [k], with no
    change; the wallet is back to what it was after the minting. *)
Theorem X11_mint_ingest_spend k w utxo tx idx s :
  coins w = [] →
  address utxo = calcAddress (public k) →
  0 < amount utxo →
  sign (Some (private k)) utxo = Some s →
  ∃ w2,
    addUTXO utxo tx idx (wallet_after (makeAddress calcAddress k w))
      = Returns w2 tt ∧
    spendUTXOs sign (amount utxo) w2
      = Returns (wallet_after (makeAddress calcAddress k w))
                (mkSpend [mkInput tx idx (Some (public k)) s] 0).
Proof.
  intros Hempty Haddr Hpos Hsign. simpl.
  unfold addUTXO. simpl. rewrite Haddr, get_set_eq. simpl.
  eexists. split; [reflexivity|].
  rewrite spendUTXOs_enough by (rewrite balance_sum; simpl; rewrite Hempty; simpl; lia).
  simpl. rewrite Hempty.
  change [mkCoin utxo tx idx] with ([] ++ [mkCoin utxo tx idx]).
  rewrite spend_loop_step, loop_step_snoc. simpl.
  destruct (Z.ltb_spec 0 (amount utxo)); [|lia].
  rewrite Z.gtb_ltb, Z.ltb_irrefl, Z.eqb_refl.
  unfold make_input. simpl. rewrite Haddr, get_set_eq. simpl. by rewrite Hsign.
Qed.



(** X14.  [makeAddress()] registers the new key pair under the address it
    returns, replacing what that address had, and changes nothing else:
    the coins and the balance stay, and every other address keeps the key
    pair it had. *)
Theorem X14_makeAddress_frame k w b kb :
  b ≠ calcAddress (public k) →
  get (addresses w) b = VKeyPair kb →
  ∃ w1,
    makeAddress calcAddress k w = Returns w1 (calcAddress (public k)) ∧
    coins w1 = coins w ∧
    balance w1 = balance w ∧
    kp w1 = kp w ∧
    get (addresses w1) (calcAddress (public k)) = VKeyPair k ∧
    get (addresses w1) b = VKeyPair kb.
Proof.
  intros Hne Hb. eexists. split; [reflexivity|]. simpl.
  split; [done|]. split; [done|]. split; [done|].
  split; [apply get_set_eq|].
  revert Hb. unfold set. destruct (decide _) as [[Heq Hown]|_]; unfold get; simpl.
  - destruct (own (addresses w) !! b); [done|].
    destruct (proto (addresses w)); repeat case_match; try done; try congruence;
      intros Hb; by apply object_prototype_not_key_pair in Hb.
  - by rewrite lookup_insert_ne.
Qed.

End MoreProperties.

(** ** The further properties on concrete wallets *)

Lemma X3_hasKey_then_addUTXO_witness :
  hasKey (address (mkUTXO 10 "addr:pubA")) wallet_A = true ∧
  addUTXO (mkUTXO 10 "addr:pubA") "t1" 0 wallet_A
    = Returns (mkWallet (mkCoin (mkUTXO 10 "addr:pubA") "t1" 0 :: coins wallet_A)
                        (addresses wallet_A) (kp wallet_A)) tt.
Proof.
  assert (H : hasKey (address (mkUTXO 10 "addr:pubA")) wallet_A = true)
    by (vm_compute; reflexivity).
  split; [exact H|].
  exact (X3_hasKey_then_addUTXO (mkUTXO 10 "addr:pubA") "t1" 0 wallet_A H).
Defined.

Lemma X4_unknown_address_rejected_witness :
  (address (mkUTXO 7 "addr:pubB") ∉ chain_names) ∧
  (¬ registered (addresses wallet_A) (address (mkUTXO 7 "addr:pubB"))) ∧
  hasKey (address (mkUTXO 7 "addr:pubB")) wallet_A = false ∧
  addUTXO (mkUTXO 7 "addr:pubB") "t1" 0 wallet_A
    = Throws wallet_A (UnknownAddress (address (mkUTXO 7 "addr:pubB"))).
Proof.
  assert (H1 : address (mkUTXO 7 "addr:pubB") ∉ chain_names).
  { apply (bool_decide_unpack _). vm_compute. exact I. }
  assert (H2 : ¬ registered (addresses wallet_A) (address (mkUTXO 7 "addr:pubB"))).
  { apply (bool_decide_unpack _). vm_compute. exact I. }
  split; [exact H1|]. split; [exact H2|].
  exact (X4_unknown_address_rejected (mkUTXO 7 "addr:pubB") "t1" 0 wallet_A H1 H2).
Defined.

Lemma X5_coins_have_keys_witness :
  Forall (fun a => a ∉ chain_names)
         (ingested [OpMakeAddress kA; OpAddUTXO (mkUTXO 10 "addr:pubA") "t1" 0]) ∧
  Forall (fun c =>
            ∃ k, get (addresses
                        (run_ops toy_sign toy_calcAddress (constructor kA)
                           [OpMakeAddress kA;
                            OpAddUTXO (mkUTXO 10 "addr:pubA") "t1" 0]))
                     (address (output c)) = VKeyPair k ∧
                 ∀ i, spends toy_sign
                        (addresses
                           (run_ops toy_sign toy_calcAddress (constructor kA)
                              [OpMakeAddress kA;
                               OpAddUTXO (mkUTXO 10 "addr:pubA") "t1" 0]))
                        c i →
                      pubKey i = Some (public k) ∧
                      toy_sign (Some (private k)) (output c) = Some (sig i))
         (coins (run_ops toy_sign toy_calcAddress (constructor kA)
                   [OpMakeAddress kA; OpAddUTXO (mkUTXO 10 "addr:pubA") "t1" 0])).
Proof.
  assert (H : Forall (fun a => a ∉ chain_names)
                (ingested [OpMakeAddress kA;
                           OpAddUTXO (mkUTXO 10 "addr:pubA") "t1" 0])).
  { apply (bool_decide_unpack _). vm_compute. exact I. }
  split; [exact H|].
  exact (X5_coins_have_keys toy_sign toy_calcAddress kA _ H).
Defined.

Lemma X6_never_minted_is_unknown_witness :
  ("addr:pubB" ∉ minted toy_calcAddress
                   [OpMakeAddress kA; OpAddUTXO (mkUTXO 10 "addr:pubA") "t1" 0]) ∧
  ("__proto__" ∉ minted toy_calcAddress
                   [OpMakeAddress kA; OpAddUTXO (mkUTXO 10 "addr:pubA") "t1" 0]) ∧
  ("addr:pubB" ∉ object_prototype_names) ∧
  hasKey "addr:pubB"
         (run_ops toy_sign toy_calcAddress (constructor kA)
            [OpMakeAddress kA; OpAddUTXO (mkUTXO 10 "addr:pubA") "t1" 0])
    = false ∧
  addUTXO (mkUTXO 7 "addr:pubB") "t2" 0
          (run_ops toy_sign toy_calcAddress (constructor kA)
             [OpMakeAddress kA; OpAddUTXO (mkUTXO 10 "addr:pubA") "t1" 0])
    = Throws (run_ops toy_sign toy_calcAddress (constructor kA)
                [OpMakeAddress kA; OpAddUTXO (mkUTXO 10 "addr:pubA") "t1" 0])
             (UnknownAddress "addr:pubB").
Proof.
  assert (H1 : "addr:pubB" ∉ minted toy_calcAddress
                 [OpMakeAddress kA; OpAddUTXO (mkUTXO 10 "addr:pubA") "t1" 0]).
  { apply (bool_decide_unpack _). vm_compute. exact I. }
  assert (H2 : "__proto__" ∉ minted toy_calcAddress
                 [OpMakeAddress kA; OpAddUTXO (mkUTXO 10 "addr:pubA") "t1" 0]).
  { apply (bool_decide_unpack _). vm_compute. exact I. }
  assert (H3 : "addr:pubB" ∉ object_prototype_names).
  { apply (bool_decide_unpack _). vm_compute. exact I. }
  split; [exact H1|]. split; [exact H2|]. split; [exact H3|].
  exact (X6_never_minted_is_unknown toy_sign toy_calcAddress kA _ "addr:pubB"
           7 "t2" 0 H1 H2 H3).
Defined.


Lemma X11_mint_ingest_spend_witness :
  coins (constructor kA) = [] ∧
  address (mkUTXO 50 "addr:pubA") = toy_calcAddress (public kA) ∧
  0 < amount (mkUTXO 50 "addr:pubA") ∧
  toy_sign (Some (private kA)) (mkUTXO 50 "addr:pubA") = Some "signed:privA" ∧
  ∃ w2,
    addUTXO (mkUTXO 50 "addr:pubA") "t1" 0
            (wallet_after (makeAddress toy_calcAddress kA (constructor kA)))
      = Returns w2 tt ∧
    spendUTXOs toy_sign (amount (mkUTXO 50 "addr:pubA")) w2
      = Returns (wallet_after (makeAddress toy_calcAddress kA (constructor kA)))
                (mkSpend [mkInput "t1" 0 (Some (public kA)) "signed:privA"] 0).
Proof.
  assert (H1 : coins (constructor kA) = []) by reflexivity.
  assert (H2 : address (mkUTXO 50 "addr:pubA") = toy_calcAddress (public kA))
    by reflexivity.
  assert (H3 : 0 < amount (mkUTXO 50 "addr:pubA")) by (simpl; lia).
  assert (H4 : toy_sign (Some (private kA)) (mkUTXO 50 "addr:pubA")
               = Some "signed:privA") by reflexivity.
  split; [exact H1|]. split; [exact H2|]. split; [exact H3|]. split; [exact H4|].
  exact (X11_mint_ingest_spend toy_sign toy_calcAddress kA (constructor kA)
           (mkUTXO 50 "addr:pubA") "t1" 0 "signed:privA" H1 H2 H3 H4).
Defined.


Lemma X14_makeAddress_frame_witness :
  "addr:pubA" ≠ toy_calcAddress (public (mkKeyPair "pubB" "privB")) ∧
  get (addresses wallet_A) "addr:pubA" = VKeyPair kA ∧
  ∃ w1,
    makeAddress toy_calcAddress (mkKeyPair "pubB" "privB") wallet_A
      = Returns w1 (toy_calcAddress (public (mkKeyPair "pubB" "privB"))) ∧
    coins w1 = coins wallet_A ∧
    balance w1 = balance wallet_A ∧
    kp w1 = kp wallet_A ∧
    get (addresses w1) (toy_calcAddress (public (mkKeyPair "pubB" "privB")))
      = VKeyPair (mkKeyPair "pubB" "privB") ∧
    get (addresses w1) "addr:pubA" = VKeyPair kA.
Proof.
  assert (H1 : "addr:pubA" ≠ toy_calcAddress (public (mkKeyPair "pubB" "privB"))).
  { apply (bool_decide_unpack _). vm_compute. exact I. }
  assert (H2 : get (addresses wallet_A) "addr:pubA" = VKeyPair kA)
    by (vm_compute; reflexivity).
  split; [exact H1|]. split; [exact H2|].
  exact (X14_makeAddress_frame toy_calcAddress (mkKeyPair "pubB" "privB")
           wallet_A "addr:pubA" kA H1 H2).
Defined.

(** ** The selection loop on double-precision amounts *)

(** [SFcompare] is antisymmetric. *)
Lemma SFcompare_antisym x y :
  SFcompare y x = option_map CompOpp (SFcompare x y).
Proof.
  destruct x as [sx|sx| |sx mx ex], y as [sy|sy| |sy my ey]; simpl;
    try destruct sx; try destruct sy; try reflexivity.
  - rewrite (Z.compare_antisym ey ex).
    destruct (ey ?= ex); simpl; try reflexivity.
    rewrite CompOpp_involutive. f_equal.
    exact (Pos.compare_cont_antisym my mx Eq).
  - rewrite (Z.compare_antisym ey ex).
    destruct (ey ?= ex); simpl; try reflexivity.
    f_equal. symmetry. exact (Pos.compare_cont_antisym mx my Eq).
Qed.

(** Only NaN is unordered. *)
Lemma SFcompare_None x y :
  SFcompare x y = None → x = S754_nan ∨ y = S754_nan.
Proof.
  destruct x as [sx|sx| |sx mx ex], y as [sy|sy| |sy my ey]; simpl;
    try discriminate; auto.
Qed.

(** For numbers other than NaN, the last branch of the loop body is the one
    of a coin whose amount is less than the requested amount. *)
Lemma small_lt target c :
  Doubles.amount (Doubles.output c) ≠ S754_nan →
  target ≠ S754_nan →
  Doubles.small target c ↔
  Doubles.lt (Doubles.amount (Doubles.output c)) target = true.
Proof.
  intros Hx Ht. unfold Doubles.small, Doubles.gt, Doubles.strict_eq, Doubles.lt.
  unfold SFltb, SFeqb.
  rewrite (SFcompare_antisym (Doubles.amount (Doubles.output c)) target).
  destruct (SFcompare (Doubles.amount (Doubles.output c)) target)
    as [[| |]|] eqn:E; simpl; try (split; [intros [? ?]|]; done).
  by apply SFcompare_None in E as [?|?].
Qed.

Section DoublesLoop.

Variable sign : option string → Doubles.UTXO → option string.

Lemma dbl_spend_loop_step target book st :
  Doubles.spend_loop sign target book st =
  match Doubles.loop_step sign target book st with
  | Doubles.Exit st' => inr st'
  | Doubles.Break st' => inr st'
  | Doubles.Raise e st' => inl (e, st')
  | Doubles.Continue st' => Doubles.spend_loop sign target book st'
  end.
Proof.
  funelim (Doubles.spend_loop sign target book st);
    match goal with E : Doubles.loop_step _ _ _ _ = _ |- _ => rewrite E end;
    reflexivity.
Qed.

Lemma dbl_loop_step_nil target book change collect ins :
  Doubles.loop_step sign target book (Doubles.mkLoopState [] change collect ins)
  = Doubles.Exit (Doubles.mkLoopState [] change collect ins).
Proof. reflexivity. Qed.

Lemma dbl_loop_step_snoc target book rest c change collect ins :
  Doubles.loop_step sign target book
    (Doubles.mkLoopState (rest ++ [c]) change collect ins) =
  if Doubles.lt collect target then
    if Doubles.gt (Doubles.amount (Doubles.output c)) target then
      match Doubles.make_input sign book c with
      | inl e =>
          Doubles.Raise e
            (Doubles.mkLoopState rest
               (Doubles.add change
                  (Doubles.sub (Doubles.amount (Doubles.output c)) target))
               (Doubles.add collect target) ins)
      | inr i =>
          Doubles.Break
            (Doubles.mkLoopState rest
               (Doubles.add change
                  (Doubles.sub (Doubles.amount (Doubles.output c)) target))
               (Doubles.add collect target) (ins ++ [i]))
      end
    else if Doubles.strict_eq (Doubles.amount (Doubles.output c)) target then
      match Doubles.make_input sign book c with
      | inl e =>
          Doubles.Raise e
            (Doubles.mkLoopState rest change (Doubles.add collect target) ins)
      | inr i =>
          Doubles.Break
            (Doubles.mkLoopState rest change (Doubles.add collect target)
               (ins ++ [i]))
      end
    else
      match Doubles.make_input sign book c with
      | inl e =>
          Doubles.Raise e
            (Doubles.mkLoopState rest change
               (Doubles.add collect (Doubles.amount (Doubles.output c))) ins)
      | inr i =>
          Doubles.Continue
            (Doubles.mkLoopState rest change
               (Doubles.add collect (Doubles.amount (Doubles.output c)))
               (ins ++ [i]))
      end
  else Doubles.Exit (Doubles.mkLoopState (rest ++ [c]) change collect ins).
Proof.
  unfold Doubles.loop_step. simpl. rewrite last_snoc, removelast_last.
  reflexivity.
Qed.

Lemma prefix_of_singleton {A} (c0 : A) pre c post :
  [c0] = pre ++ c :: post → pre = [] ∧ c = c0 ∧ post = [].
Proof.
  destruct pre as [|p pre]; simpl; [by intros [= -> <-]|].
  intros [= _ H]. by destruct pre.
Qed.

(** The loop when it ends normally.  The coins [consumed], oldest first,
    were popped one after the other and their inputs pushed in that order;
    the loop test held before each of them; and either the last of them
    ended the loop by [break], or all of them went through the last branch
    and the loop test failed. *)
Lemma dbl_spend_loop_returns target book cs :
  ∀ change collect ins st',
    Doubles.spend_loop sign target book
      (Doubles.mkLoopState cs change collect ins) = inr st' →
    ∃ consumed new,
      cs = Doubles.remaining st' ++ rev consumed ∧
      Doubles.inputs st' = ins ++ new ∧
      Forall2 (Doubles.spends sign book) consumed new ∧
      (∀ pre c post, consumed = pre ++ c :: post →
                     Doubles.lt (Doubles.collected_from collect pre) target
                     = true) ∧
      ((∃ pre c,
           consumed = pre ++ [c] ∧
           Forall (Doubles.small target) pre ∧
           Doubles.reaches target c ∧
           Doubles.changeAmount st'
             = (if Doubles.gt (Doubles.amount (Doubles.output c)) target
                then Doubles.add change
                       (Doubles.sub (Doubles.amount (Doubles.output c)) target)
                else change) ∧
           Doubles.collectAmount st'
             = Doubles.add (Doubles.collected_from collect pre) target)
       ∨ (Forall (Doubles.small target) consumed ∧
          Doubles.changeAmount st' = change ∧
          Doubles.collectAmount st' = Doubles.collected_from collect consumed ∧
          (Doubles.remaining st' = [] ∨
           Doubles.lt (Doubles.collectAmount st') target = false))).
Proof.
  induction cs as [|c0 rest IH] using rev_ind; intros change collect ins st'.
  - rewrite dbl_spend_loop_step, dbl_loop_step_nil. intros [= <-].
    exists [], []. simpl. rewrite app_nil_r.
    split; [done|]. split; [done|]. split; [constructor|].
    split; [intros pre c post H; by destruct pre|].
    right. split; [constructor|]. split; [done|]. split; [done|]. by left.
  - rewrite dbl_spend_loop_step, dbl_loop_step_snoc.
    destruct (Doubles.lt collect target) eqn:Hlt.
    2:{ intros [= <-]. exists [], []. simpl. rewrite !app_nil_r.
        split; [done|]. split; [done|]. split; [constructor|].
        split; [intros pre c post H; by destruct pre|].
        right. split; [constructor|]. split; [done|]. split; [done|].
        by right. }
    destruct (Doubles.gt (Doubles.amount (Doubles.output c0)) target) eqn:Hgt.
    { destruct (Doubles.make_input sign book c0) as [e|i] eqn:Hi; [done|].
      intros [= <-]. exists [c0], [i]. simpl.
      split; [done|]. split; [done|]. split; [by repeat constructor|].
      split; [by intros pre c post (-> & _ & _)%prefix_of_singleton|].
      left. exists [], c0. simpl.
      split; [done|]. split; [constructor|]. split; [by left|].
      by rewrite Hgt. }
    destruct (Doubles.strict_eq (Doubles.amount (Doubles.output c0)) target)
      eqn:Heq.
    { destruct (Doubles.make_input sign book c0) as [e|i] eqn:Hi; [done|].
      intros [= <-]. exists [c0], [i]. simpl.
      split; [done|]. split; [done|]. split; [by repeat constructor|].
      split; [by intros pre c post (-> & _ & _)%prefix_of_singleton|].
      left. exists [], c0. simpl.
      split; [done|]. split; [constructor|]. split; [by right|].
      by rewrite Hgt. }
    destruct (Doubles.make_input sign book c0) as [e|i] eqn:Hi; [done|].
    intros Hrun.
    apply IH in Hrun as (consumed & new & -> & Hins & Hsp & Hpre & Hend).
    assert (Hc0 : Doubles.small target c0) by done.
    exists (c0 :: consumed), (i :: new). simpl.
    split; [by rewrite app_assoc|].
    split; [by rewrite Hins, <- app_assoc|].
    split; [by constructor|].
    split.
    { intros [|p pre] c post Heq'; simpl in *; [done|].
      injection Heq' as <- Heq'. by eapply Hpre. }
    destruct Hend as [(pre & c & -> & Hsmall & Hc & Hch & Hcol)
                     |(Hall & Hch & Hcol & Hstop)].
    + left. exists (c0 :: pre), c. simpl.
      split; [done|]. split; [by constructor|]. done.
    + right. split; [by constructor|]. done.
Qed.

(** The loop when it throws: the coin [c] had been popped while the loop
    test held, and building its input raised [e]; the coins before it went
    through the last branch. *)
Lemma dbl_spend_loop_throws target book cs :
  ∀ change collect ins e st',
    Doubles.spend_loop sign target book
      (Doubles.mkLoopState cs change collect ins) = inl (e, st') →
    ∃ consumed c new,
      cs = Doubles.remaining st' ++ [c] ++ rev consumed ∧
      Doubles.make_input sign book c = inl e ∧
      Doubles.inputs st' = ins ++ new ∧
      Forall2 (Doubles.spends sign book) consumed new ∧
      Forall (Doubles.small target) consumed ∧
      (∀ pre c1 post, consumed ++ [c] = pre ++ c1 :: post →
                      Doubles.lt (Doubles.collected_from collect pre) target
                      = true).
Proof.
  induction cs as [|c0 rest IH] using rev_ind; intros change collect ins e st'.
  - rewrite dbl_spend_loop_step, dbl_loop_step_nil. done.
  - rewrite dbl_spend_loop_step, dbl_loop_step_snoc.
    destruct (Doubles.lt collect target) eqn:Hlt; [|done].
    assert (Hfirst : ∀ e', Doubles.make_input sign book c0 = inl e' →
              ∃ consumed c new,
                rest ++ [c0] = rest ++ [c] ++ rev consumed ∧
                Doubles.make_input sign book c = inl e' ∧
                ins = ins ++ new ∧
                Forall2 (Doubles.spends sign book) consumed new ∧
                Forall (Doubles.small target) consumed ∧
                (∀ pre c1 post, consumed ++ [c] = pre ++ c1 :: post →
                   Doubles.lt (Doubles.collected_from collect pre) target
                   = true)).
    { intros e' He'. exists [], c0, []. simpl. rewrite app_nil_r.
      split; [done|]. split; [done|]. split; [done|].
      split; [constructor|]. split; [constructor|].
      by intros pre c1 post (-> & _ & _)%prefix_of_singleton. }
    destruct (Doubles.gt (Doubles.amount (Doubles.output c0)) target) eqn:Hgt.
    { destruct (Doubles.make_input sign book c0) as [e'|i] eqn:Hi; [|done].
      intros [= <- <-]. by apply Hfirst. }
    destruct (Doubles.strict_eq (Doubles.amount (Doubles.output c0)) target)
      eqn:Heq.
    { destruct (Doubles.make_input sign book c0) as [e'|i] eqn:Hi; [|done].
      intros [= <- <-]. by apply Hfirst. }
    destruct (Doubles.make_input sign book c0) as [e'|i] eqn:Hi.
    { intros [= <- <-]. by apply Hfirst. }
    clear Hfirst. intros Hrun.
    apply IH in Hrun
      as (consumed & c & new & -> & Hc & Hins & Hsp & Hall & Hpre).
    assert (Hc0 : Doubles.small target c0) by done.
    exists (c0 :: consumed), c, (i :: new). simpl.
    split; [by rewrite <- !app_assoc|].
    split; [done|].
    split; [by rewrite Hins, <- app_assoc|].
    split; [by constructor|].
    split; [by constructor|].
    intros [|p pre] c1 post Heq'; simpl in *; [done|].
    injection Heq' as <- Heq'. by eapply Hpre.
Qed.

End DoublesLoop.

(** ** Sums of double-precision amounts *)

Lemma int_sum_app l1 l2 :
  Doubles.int_sum (l1 ++ l2) =
  match Doubles.int_sum l1, Doubles.int_sum l2 with
  | Some a, Some b => Some (a + b)
  | _, _ => None
  end.
Proof.
  induction l1 as [|x l1 IH]; simpl.
  - by destruct (Doubles.int_sum l2).
  - rewrite IH. destruct (Doubles.to_Z x), (Doubles.int_sum l1),
      (Doubles.int_sum l2); try done. f_equal. lia.
Qed.

Lemma int_sum_rev l : Doubles.int_sum (rev l) = Doubles.int_sum l.
Proof.
  induction l as [|x l IH]; simpl; [done|].
  rewrite int_sum_app, IH. simpl.
  destruct (Doubles.to_Z x), (Doubles.int_sum l); try done. f_equal. lia.
Qed.

Lemma exact_steps_app l1 :
  ∀ acc l2,
    Doubles.exact_steps acc (l1 ++ l2) =
    Doubles.exact_steps acc l1 &&
    Doubles.exact_steps (fold_left Doubles.add l1 acc) l2.
Proof.
  induction l1 as [|x l1 IH]; intros acc l2; simpl; [done|].
  destruct (Doubles.to_Z acc), (Doubles.to_Z x),
    (Doubles.to_Z (Doubles.add acc x)); try done.
  rewrite IH. by rewrite andb_assoc.
Qed.

(** When every addition is exact, the left-to-right sum denotes the sum of
    the integers its operands denote. *)
Lemma exact_steps_sound l :
  ∀ acc a,
    Doubles.to_Z acc = Some a →
    Doubles.exact_steps acc l = true →
    ∃ s, Doubles.int_sum l = Some s ∧
         Doubles.to_Z (fold_left Doubles.add l acc) = Some (a + s).
Proof.
  induction l as [|x l IH]; intros acc a Hacc; simpl.
  - intros _. exists 0. split; [done|]. by rewrite Z.add_0_r.
  - rewrite Hacc. destruct (Doubles.to_Z x) as [y|]; [|done].
    destruct (Doubles.to_Z (Doubles.add acc x)) as [z|] eqn:Hz; [|done].
    intros [Hzxy Hrest]%andb_true_iff. apply Z.eqb_eq in Hzxy. subst z.
    destruct (IH _ _ Hz Hrest) as (s & -> & ->).
    exists (y + s). split; [done|]. f_equal. lia.
Qed.

Lemma balance_fold_amounts w :
  Doubles.balance w
  = fold_left Doubles.add (Doubles.amounts (Doubles.coins w)) Doubles.zero.
Proof.
  unfold Doubles.balance, Doubles.amounts.
  generalize Doubles.zero. induction (Doubles.coins w) as [|c l IH]; intros acc;
    simpl; [done|]. apply IH.
Qed.

Lemma amounts_app l1 l2 :
  Doubles.amounts (l1 ++ l2) = Doubles.amounts l1 ++ Doubles.amounts l2.
Proof. apply map_app. Qed.

Lemma amounts_rev l : Doubles.amounts (rev l) = rev (Doubles.amounts l).
Proof. apply map_rev. Qed.

Lemma dbl_addUTXO_Returns_inv utxo tx idx w w' u :
  Doubles.addUTXO utxo tx idx w = Doubles.Returns w' u →
  w' = Doubles.mkWallet (Doubles.mkCoin utxo tx idx :: Doubles.coins w)
         (Doubles.addresses w) (Doubles.kp w).
Proof.
  unfold Doubles.addUTXO.
  destruct (is_undefined _); [done|]. by intros [= <-].
Qed.

Lemma dbl_ingest_Returns_inv l :
  ∀ w w' u,
    Doubles.ingest l w = Doubles.Returns w' u →
    Doubles.coins w' = rev l ++ Doubles.coins w ∧
    Doubles.addresses w' = Doubles.addresses w ∧
    Doubles.kp w' = Doubles.kp w.
Proof.
  induction l as [|c l IH]; intros w w' u; simpl.
  - by intros [= <-].
  - destruct (Doubles.addUTXO _ _ _ w) as [w1 []|w1 e] eqn:Hadd; [|done].
    apply dbl_addUTXO_Returns_inv in Hadd as ->.
    intros (-> & -> & ->)%IH. simpl.
    rewrite <- app_assoc. by destruct c.
Qed.

Section DoublesClaims.

Variable sign : option string → Doubles.UTXO → option string.

Lemma dbl_spendUTXOs_enough target w :
  Doubles.gt target (Doubles.balance w) = false →
  Doubles.spendUTXOs sign target w =
  match Doubles.spend_loop sign target (Doubles.addresses w)
          (Doubles.mkLoopState (Doubles.coins w) Doubles.zero Doubles.zero [])
  with
  | inr st =>
      Doubles.Returns
        (Doubles.mkWallet (Doubles.remaining st) (Doubles.addresses w)
                          (Doubles.kp w))
        (Doubles.mkSpend (Doubles.inputs st) (Doubles.changeAmount st))
  | inl (e, st) =>
      Doubles.Throws
        (Doubles.mkWallet (Doubles.remaining st) (Doubles.addresses w)
                          (Doubles.kp w)) e
  end.
Proof. intros Hle. unfold Doubles.spendUTXOs. by rewrite Hle. Qed.

Lemma dbl_spendUTXOs_Returns_inv target w w' r :
  Doubles.spendUTXOs sign target w = Doubles.Returns w' r →
  Doubles.gt target (Doubles.balance w) = false ∧
  ∃ st', Doubles.spend_loop sign target (Doubles.addresses w)
           (Doubles.mkLoopState (Doubles.coins w) Doubles.zero Doubles.zero [])
         = inr st' ∧
         w' = Doubles.mkWallet (Doubles.remaining st') (Doubles.addresses w)
                               (Doubles.kp w) ∧
         r = Doubles.mkSpend (Doubles.inputs st') (Doubles.changeAmount st').
Proof.
  unfold Doubles.spendUTXOs.
  destruct (Doubles.gt target (Doubles.balance w)); [done|].
  destruct (Doubles.spend_loop _ _ _ _) as [[e st']|st'] eqn:Hrun; [done|].
  intros [= <- <-]. split; [done|]. by exists st'.
Qed.

Lemma dbl_spends_reference book c i :
  Doubles.spends sign book c i →
  inTxID i = Doubles.txID c ∧ inOutputIndex i = Doubles.outputIndex c.
Proof.
  unfold Doubles.spends, Doubles.make_input.
  destruct (is_undefined _); [done|].
  destruct (sign _ _); [|done]. by intros [= <-].
Qed.

(** C1, as the code has it, on double-precision amounts.  For a request
    that does not exceed the balance, the loop of [spendUTXOs] pops the
    coins [consumed], oldest first, and pushes their inputs in that order.
    The loop test held before each of them: the amounts of the coins
    taken before it, added up from 0 as [collectAmount] does, were less than
    the requested amount.  Each of them but possibly the last went through
    the last branch (its amount neither greater than nor equal to the
    requested amount, that is, less when no NaN is involved).  The loop ends
    in one of these ways: the last consumed coin is greater than or equal to
    the requested amount (the two [break]s, the first of which sets the
    change); no coin is left; [collectAmount] is no longer less than the
    requested amount (the loop test); or building the input of a popped
    coin [c] throws, and the exception leaves the method. *)
Theorem C1_selection_loop_doubles target w :
  Doubles.gt target (Doubles.balance w) = false →
  match Doubles.spend_loop sign target (Doubles.addresses w)
          (Doubles.mkLoopState (Doubles.coins w) Doubles.zero Doubles.zero [])
  with
  | inr st' =>
      Doubles.spendUTXOs sign target w =
        Doubles.Returns
          (Doubles.mkWallet (Doubles.remaining st') (Doubles.addresses w)
                            (Doubles.kp w))
          (Doubles.mkSpend (Doubles.inputs st') (Doubles.changeAmount st')) ∧
      ∃ consumed,
        Doubles.coins w = Doubles.remaining st' ++ rev consumed ∧
        Forall2 (Doubles.spends sign (Doubles.addresses w)) consumed
                (Doubles.inputs st') ∧
        (∀ pre c post, consumed = pre ++ c :: post →
                       Doubles.lt (Doubles.collected pre) target = true) ∧
        ((∃ pre c,
             consumed = pre ++ [c] ∧
             Forall (Doubles.small target) pre ∧
             Doubles.reaches target c ∧
             Doubles.changeAmount st'
               = (if Doubles.gt (Doubles.amount (Doubles.output c)) target
                  then Doubles.add Doubles.zero
                         (Doubles.sub (Doubles.amount (Doubles.output c)) target)
                  else Doubles.zero) ∧
             Doubles.collectAmount st'
               = Doubles.add (Doubles.collected pre) target)
         ∨ (Forall (Doubles.small target) consumed ∧
            Doubles.changeAmount st' = Doubles.zero ∧
            Doubles.collectAmount st' = Doubles.collected consumed ∧
            (Doubles.remaining st' = [] ∨
             Doubles.lt (Doubles.collected consumed) target = false)))
  | inl (e, st') =>
      Doubles.spendUTXOs sign target w =
        Doubles.Throws
          (Doubles.mkWallet (Doubles.remaining st') (Doubles.addresses w)
                            (Doubles.kp w)) e ∧
      ∃ consumed c,
        Doubles.coins w = Doubles.remaining st' ++ [c] ++ rev consumed ∧
        Forall2 (Doubles.spends sign (Doubles.addresses w)) consumed
                (Doubles.inputs st') ∧
        Forall (Doubles.small target) consumed ∧
        (∀ pre c1 post, consumed ++ [c] = pre ++ c1 :: post →
                        Doubles.lt (Doubles.collected pre) target = true) ∧
        Doubles.make_input sign (Doubles.addresses w) c = inl e
  end.
Proof.
  intros Hbal. rewrite dbl_spendUTXOs_enough by done.
  destruct (Doubles.spend_loop _ _ _ _) as [[e st']|st'] eqn:Hrun.
  - split; [done|].
    apply dbl_spend_loop_throws in Hrun
      as (consumed & c & new & Hcs & Hc & Hins & Hsp & Hall & Hpre).
    simpl in Hins. subst new. by exists consumed, c.
  - split; [done|].
    apply dbl_spend_loop_returns in Hrun
      as (consumed & new & Hcs & Hins & Hsp & Hpre & Hend).
    simpl in Hins. subst new. exists consumed.
    split; [done|]. split; [done|]. split; [done|].
    destruct Hend as [(pre & c & -> & Hsmall & Hc & Hch & Hcol)
                     |(Hsmall & Hch & Hcol & Hstop)].
    + left. by exists pre, c.
    + right. split; [done|]. split; [done|]. split; [done|].
      unfold Doubles.collected. by rewrite <- Hcol.
Qed.

(** C5, as the code has it, on double-precision amounts.  The balance is
    the sum of [output.amount] over the coins held, added in double
    precision from index 0 on, starting from 0.  After a sequence of
    [addUTXO] calls that all return, started on a wallet without coins, it
    is therefore the amounts of the ingested outputs added in double
    precision from the last ingested to the first.  In every wallet in
    which each of these additions is exact, the balance is the sum of the
    amounts of the coins held; with the ingested outputs it is then the sum
    of their amounts. *)
Theorem C5_balance_doubles l w w' :
  Doubles.coins w = [] →
  Doubles.ingest l w = Doubles.Returns w' tt →
  Doubles.balance w'
    = fold_right (fun c acc => Doubles.add acc (Doubles.amount (Doubles.output c)))
                 Doubles.zero l ∧
  (∀ v, Doubles.exact_steps Doubles.zero (Doubles.amounts (Doubles.coins v))
        = true →
        ∃ s, Doubles.int_sum (Doubles.amounts (Doubles.coins v)) = Some s ∧
             Doubles.to_Z (Doubles.balance v) = Some s) ∧
  (Doubles.exact_steps Doubles.zero (Doubles.amounts (Doubles.coins w')) = true →
   ∃ s, Doubles.int_sum (Doubles.amounts l) = Some s ∧
        Doubles.to_Z (Doubles.balance w') = Some s).
Proof.
  intros Hempty (Hcoins & _ & _)%dbl_ingest_Returns_inv.
  rewrite Hempty, app_nil_r in Hcoins.
  assert (Hexact : ∀ v,
    Doubles.exact_steps Doubles.zero (Doubles.amounts (Doubles.coins v)) = true →
    ∃ s, Doubles.int_sum (Doubles.amounts (Doubles.coins v)) = Some s ∧
         Doubles.to_Z (Doubles.balance v) = Some s).
  { intros v Hv. rewrite balance_fold_amounts.
    by apply (exact_steps_sound _ Doubles.zero 0). }
  split; [|split; [exact Hexact|]].
  - unfold Doubles.balance. rewrite Hcoins.
    by rewrite <- fold_left_rev_right, rev_involutive.
  - intros Hw'. destruct (Hexact w' Hw') as (s & Hs & Hb). exists s.
    split; [|done]. by rewrite Hcoins, amounts_rev, int_sum_rev in Hs.
Qed.

(** C6, on double-precision amounts.  Let [w] be the wallet after the
    ingestion of the outputs [l] in that order into [w0]; the queue of its
    coins in order of arrival is the coins of [w0], oldest first, followed
    by [l].  A call of [spendUTXOs] on [w] removes a prefix [consumed] of
    that queue, the coins that arrived first, and keeps the rest.  The
    prefix is the one the loop determines: each of its coins was taken while
    the amounts taken before it added up to less than the requested amount;
    when the call returns, its inputs are those of [consumed], in order of
    arrival, and the prefix stops at a coin greater than or equal to the
    requested amount, or at the end of the queue, or where the amounts
    taken are no longer less than the requested amount; when the call
    throws, either the request exceeded the balance and nothing was taken,
    or the last coin taken is the one whose input could not be built. *)
Theorem C6_oldest_first_doubles target l w0 w :
  Doubles.ingest l w0 = Doubles.Returns w tt →
  ∃ consumed rest,
    rev (Doubles.coins w0) ++ l = consumed ++ rest ∧
    Doubles.coins (Doubles.wallet_after (Doubles.spendUTXOs sign target w))
      = rev rest ∧
    (∀ pre c post, consumed = pre ++ c :: post →
                   Doubles.lt (Doubles.collected pre) target = true) ∧
    match Doubles.spendUTXOs sign target w with
    | Doubles.Returns _ r =>
        Forall2 (Doubles.spends sign (Doubles.addresses w)) consumed
                (Doubles.spendInputs r) ∧
        ((∃ pre c, consumed = pre ++ [c] ∧
                   Forall (Doubles.small target) pre ∧
                   Doubles.reaches target c)
         ∨ (Forall (Doubles.small target) consumed ∧
            (rest = [] ∨
             Doubles.lt (Doubles.collected consumed) target = false)))
    | Doubles.Throws _ e =>
        (Doubles.gt target (Doubles.balance w) = true ∧ consumed = [])
        ∨ (Doubles.gt target (Doubles.balance w) = false ∧
           ∃ pre c, consumed = pre ++ [c] ∧
                    Forall (Doubles.small target) pre ∧
                    Doubles.make_input sign (Doubles.addresses w) c = inl e)
    end.
Proof.
  intros (Hcoins & _ & _)%dbl_ingest_Returns_inv.
  assert (Hq : rev (Doubles.coins w0) ++ l = rev (Doubles.coins w))
    by (by rewrite Hcoins, rev_app_distr, rev_involutive).
  rewrite Hq. clear Hq Hcoins.
  unfold Doubles.spendUTXOs.
  destruct (Doubles.gt target (Doubles.balance w)) eqn:Hgt.
  { exists [], (rev (Doubles.coins w)). simpl.
    split; [done|]. split; [by rewrite rev_involutive|].
    split; [intros pre c post H; by destruct pre|]. by left. }
  destruct (Doubles.spend_loop _ _ _ _) as [[e st']|st'] eqn:Hrun.
  - apply dbl_spend_loop_throws in Hrun
      as (consumed & c & new & -> & Hc & _ & _ & Hall & Hpre).
    exists (consumed ++ [c]), (rev (Doubles.remaining st')).
    split.
    { rewrite !rev_app_distr. simpl. by rewrite rev_involutive, <- app_assoc. }
    split; [simpl; by rewrite rev_involutive|].
    split; [exact Hpre|].
    right. split; [done|]. by exists consumed, c.
  - apply dbl_spend_loop_returns in Hrun
      as (consumed & new & -> & Hins & Hsp & Hpre & Hend).
    exists consumed, (rev (Doubles.remaining st')). simpl.
    split; [by rewrite rev_app_distr, rev_involutive|].
    split; [by rewrite rev_involutive|].
    split; [exact Hpre|].
    simpl in Hins. subst new. split; [done|].
    destruct Hend as [(pre & c & -> & Hsmall & Hc & _)
                     |(Hsmall & _ & Hcol & Hstop)].
    + left. by exists pre, c.
    + right. split; [done|]. destruct Hstop as [->|Hlt]; [by left|right].
      unfold Doubles.collected. by rewrite <- Hcol.
Qed.

(** C10, as the code has it, on double-precision amounts.  A call of
    [spendUTXOs] that returns leaves [addresses] (and the default key pair)
    untouched; the coins it removed are the coins [consumed], the oldest
    ones, one per returned input and in the order of the inputs, every other
    coin stays in place.  When the balance before the call is computed
    without rounding, so is the balance after it, and it is the balance
    before minus the sum of the amounts of the consumed coins. *)
Theorem C10_spend_frame_doubles target w w' r :
  Doubles.spendUTXOs sign target w = Doubles.Returns w' r →
  Doubles.addresses w' = Doubles.addresses w ∧
  Doubles.kp w' = Doubles.kp w ∧
  ∃ consumed,
    Doubles.coins w = Doubles.coins w' ++ rev consumed ∧
    Forall2 (Doubles.spends sign (Doubles.addresses w)) consumed
            (Doubles.spendInputs r) ∧
    Forall2 (fun c i => inTxID i = Doubles.txID c ∧
                        inOutputIndex i = Doubles.outputIndex c)
            consumed (Doubles.spendInputs r) ∧
    length (Doubles.spendInputs r) = length consumed ∧
    (Doubles.exact_steps Doubles.zero (Doubles.amounts (Doubles.coins w)) = true →
     ∃ b b' s,
       Doubles.to_Z (Doubles.balance w) = Some b ∧
       Doubles.to_Z (Doubles.balance w') = Some b' ∧
       Doubles.int_sum (Doubles.amounts consumed) = Some s ∧
       b' = b - s).
Proof.
  intros (Hbal & st' & Hrun & -> & ->)%dbl_spendUTXOs_Returns_inv. simpl.
  split; [done|]. split; [done|].
  apply dbl_spend_loop_returns in Hrun
    as (consumed & new & Hcs & Hins & Hsp & _).
  simpl in Hins. subst new. exists consumed.
  split; [done|]. split; [done|].
  split; [eapply Forall2_impl; [exact Hsp|]; intros c i;
          apply dbl_spends_reference|].
  split; [symmetry; by eapply Forall2_length|].
  rewrite !balance_fold_amounts. simpl.
  rewrite Hcs, amounts_app, amounts_rev, exact_steps_app, fold_left_app.
  intros [Hkept Hgone]%andb_true_iff.
  destruct (exact_steps_sound _ Doubles.zero 0 eq_refl Hkept) as (b' & _ & Hb').
  destruct (exact_steps_sound _ _ _ Hb' Hgone) as (s & Hs & Hb).
  rewrite int_sum_rev in Hs.
  exists (0 + b' + s), (0 + b'), s. split; [done|]. split; [done|].
  split; [done|]. lia.
Qed.

End DoublesClaims.

(** ** The double-precision operations on concrete wallets *)

Lemma C1_selection_loop_doubles_witness :
  Doubles.gt (Doubles.of_Z 15) (Doubles.balance Doubles.wallet_10_10_100)
    = false ∧
  Doubles.spendUTXOs Doubles.toy_sign (Doubles.of_Z 15) Doubles.wallet_10_10_100
    = Doubles.Returns (Doubles.wallet_A_with [Doubles.coin_A "t3" 100])
        (Doubles.mkSpend [input_A "t1"; input_A "t2"] Doubles.zero) ∧
  ∃ consumed,
    Doubles.coins Doubles.wallet_10_10_100
      = [Doubles.coin_A "t3" 100] ++ rev consumed ∧
    Forall2 (Doubles.spends Doubles.toy_sign
               (Doubles.addresses Doubles.wallet_10_10_100))
            consumed [input_A "t1"; input_A "t2"] ∧
    (∀ pre c post, consumed = pre ++ c :: post →
                   Doubles.lt (Doubles.collected pre) (Doubles.of_Z 15) = true) ∧
    ((∃ pre c,
         consumed = pre ++ [c] ∧
         Forall (Doubles.small (Doubles.of_Z 15)) pre ∧
         Doubles.reaches (Doubles.of_Z 15) c ∧
         Doubles.zero
           = (if Doubles.gt (Doubles.amount (Doubles.output c)) (Doubles.of_Z 15)
              then Doubles.add Doubles.zero
                     (Doubles.sub (Doubles.amount (Doubles.output c))
                                  (Doubles.of_Z 15))
              else Doubles.zero) ∧
         Doubles.of_Z 20
           = Doubles.add (Doubles.collected pre) (Doubles.of_Z 15))
     ∨ (Forall (Doubles.small (Doubles.of_Z 15)) consumed ∧
        Doubles.zero = Doubles.zero ∧
        Doubles.of_Z 20 = Doubles.collected consumed ∧
        ([Doubles.coin_A "t3" 100] = [] ∨
         Doubles.lt (Doubles.collected consumed) (Doubles.of_Z 15) = false))).
Proof.
  assert (H1 : Doubles.gt (Doubles.of_Z 15)
                 (Doubles.balance Doubles.wallet_10_10_100) = false)
    by (vm_compute; reflexivity).
  split; [exact H1|].
  pose proof (C1_selection_loop_doubles Doubles.toy_sign (Doubles.of_Z 15)
                Doubles.wallet_10_10_100 H1) as H.
  assert (Hrun : Doubles.spend_loop Doubles.toy_sign (Doubles.of_Z 15)
                   (Doubles.addresses Doubles.wallet_10_10_100)
                   (Doubles.mkLoopState (Doubles.coins Doubles.wallet_10_10_100)
                      Doubles.zero Doubles.zero [])
                 = inr (Doubles.mkLoopState [Doubles.coin_A "t3" 100]
                          Doubles.zero (Doubles.of_Z 20)
                          [input_A "t1"; input_A "t2"]))
    by (vm_compute; reflexivity).
  rewrite Hrun in H. exact H.
Defined.

(** C1 with only two ways for the loop to end does not hold: coins of 10,
    10 and 100 (oldest first) and the request 15.  The call consumes the
    two coins of 10, neither of which is greater than or equal to 15, and
    returns with the coin of 100 still held. *)
Lemma C1_counterexample_doubles :
  Doubles.gt (Doubles.of_Z 15) (Doubles.balance Doubles.wallet_10_10_100)
    = false ∧
  Doubles.spendUTXOs Doubles.toy_sign (Doubles.of_Z 15) Doubles.wallet_10_10_100
    = Doubles.Returns (Doubles.wallet_A_with [Doubles.coin_A "t3" 100])
        (Doubles.mkSpend [input_A "t1"; input_A "t2"] Doubles.zero) ∧
  Doubles.coins Doubles.wallet_10_10_100
    = [Doubles.coin_A "t3" 100]
      ++ rev [Doubles.coin_A "t1" 10; Doubles.coin_A "t2" 10] ∧
  (¬ Doubles.reaches (Doubles.of_Z 15) (Doubles.coin_A "t1" 10)) ∧
  (¬ Doubles.reaches (Doubles.of_Z 15) (Doubles.coin_A "t2" 10)) ∧
  Doubles.coins (Doubles.wallet_A_with [Doubles.coin_A "t3" 100]) ≠ [].
Proof.
  split; [vm_compute; reflexivity|].
  split; [vm_compute; reflexivity|].
  split; [reflexivity|].
  split; [intros [H|H]; vm_compute in H; discriminate|].
  split; [intros [H|H]; vm_compute in H; discriminate|].
  discriminate.
Qed.

Lemma C5_balance_doubles_witness :
  Doubles.coins (Doubles.wallet_A_with []) = [] ∧
  Doubles.ingest [Doubles.coin_A "t1" 10; Doubles.coin_A "t2" 10;
                  Doubles.coin_A "t3" 100] (Doubles.wallet_A_with [])
    = Doubles.Returns Doubles.wallet_10_10_100 tt ∧
  Doubles.exact_steps Doubles.zero
    (Doubles.amounts (Doubles.coins Doubles.wallet_10_10_100)) = true ∧
  Doubles.balance Doubles.wallet_10_10_100
    = fold_right (fun c acc => Doubles.add acc (Doubles.amount (Doubles.output c)))
        Doubles.zero
        [Doubles.coin_A "t1" 10; Doubles.coin_A "t2" 10; Doubles.coin_A "t3" 100] ∧
  (∀ v, Doubles.exact_steps Doubles.zero (Doubles.amounts (Doubles.coins v))
        = true →
        ∃ s, Doubles.int_sum (Doubles.amounts (Doubles.coins v)) = Some s ∧
             Doubles.to_Z (Doubles.balance v) = Some s) ∧
  ∃ s, Doubles.int_sum
         (Doubles.amounts [Doubles.coin_A "t1" 10; Doubles.coin_A "t2" 10;
                           Doubles.coin_A "t3" 100]) = Some s ∧
       Doubles.to_Z (Doubles.balance Doubles.wallet_10_10_100) = Some s.
Proof.
  assert (H1 : Doubles.coins (Doubles.wallet_A_with []) = []) by reflexivity.
  assert (H2 : Doubles.ingest [Doubles.coin_A "t1" 10; Doubles.coin_A "t2" 10;
                               Doubles.coin_A "t3" 100] (Doubles.wallet_A_with [])
               = Doubles.Returns Doubles.wallet_10_10_100 tt)
    by (vm_compute; reflexivity).
  assert (H3 : Doubles.exact_steps Doubles.zero
                 (Doubles.amounts (Doubles.coins Doubles.wallet_10_10_100))
               = true) by (vm_compute; reflexivity).
  split; [exact H1|]. split; [exact H2|]. split; [exact H3|].
  destruct (C5_balance_doubles _ _ _ H1 H2) as (Ha & Hb & Hc).
  split; [exact Ha|]. split; [exact Hb|]. exact (Hc H3).
Defined.

(** C5 with the exact sum does not hold: outputs of 1, 1 and 2^53 are
    ingested in that order; [balance] adds 2^53, 1 and 1 from 0 and each
    addition of 1 is rounded away, so that it reads 2^53 where the amounts
    sum to 2^53 + 2. *)
Lemma C5_counterexample_doubles :
  Doubles.coins (Doubles.wallet_A_with []) = [] ∧
  Doubles.ingest [Doubles.coin_A "t1" 1; Doubles.coin_A "t2" 1;
                  Doubles.coin_A "t3" 9007199254740992] (Doubles.wallet_A_with [])
    = Doubles.Returns Doubles.wallet_1_1_big tt ∧
  Doubles.int_sum
    (Doubles.amounts [Doubles.coin_A "t1" 1; Doubles.coin_A "t2" 1;
                      Doubles.coin_A "t3" 9007199254740992])
    = Some 9007199254740994 ∧
  Doubles.balance Doubles.wallet_1_1_big = Doubles.of_Z 9007199254740992 ∧
  Doubles.to_Z (Doubles.balance Doubles.wallet_1_1_big)
    = Some 9007199254740992 ∧
  Doubles.strict_eq (Doubles.balance Doubles.wallet_1_1_big)
                    (Doubles.of_Z 9007199254740994) = false.
Proof. repeat split; vm_compute; reflexivity. Qed.

Lemma C6_oldest_first_doubles_witness :
  Doubles.ingest [Doubles.coin_A "t1" 10; Doubles.coin_A "t2" 10;
                  Doubles.coin_A "t3" 100] (Doubles.wallet_A_with [])
    = Doubles.Returns Doubles.wallet_10_10_100 tt ∧
  Doubles.spendUTXOs Doubles.toy_sign (Doubles.of_Z 15) Doubles.wallet_10_10_100
    = Doubles.Returns (Doubles.wallet_A_with [Doubles.coin_A "t3" 100])
        (Doubles.mkSpend [input_A "t1"; input_A "t2"] Doubles.zero) ∧
  ∃ consumed rest,
    rev (Doubles.coins (Doubles.wallet_A_with []))
      ++ [Doubles.coin_A "t1" 10; Doubles.coin_A "t2" 10; Doubles.coin_A "t3" 100]
      = consumed ++ rest ∧
    Doubles.coins (Doubles.wallet_A_with [Doubles.coin_A "t3" 100]) = rev rest ∧
    (∀ pre c post, consumed = pre ++ c :: post →
                   Doubles.lt (Doubles.collected pre) (Doubles.of_Z 15) = true) ∧
    Forall2 (Doubles.spends Doubles.toy_sign
               (Doubles.addresses Doubles.wallet_10_10_100))
            consumed [input_A "t1"; input_A "t2"] ∧
    ((∃ pre c, consumed = pre ++ [c] ∧
               Forall (Doubles.small (Doubles.of_Z 15)) pre ∧
               Doubles.reaches (Doubles.of_Z 15) c)
     ∨ (Forall (Doubles.small (Doubles.of_Z 15)) consumed ∧
        (rest = [] ∨
         Doubles.lt (Doubles.collected consumed) (Doubles.of_Z 15) = false))).
Proof.
  assert (H : Doubles.ingest [Doubles.coin_A "t1" 10; Doubles.coin_A "t2" 10;
                              Doubles.coin_A "t3" 100] (Doubles.wallet_A_with [])
              = Doubles.Returns Doubles.wallet_10_10_100 tt)
    by (vm_compute; reflexivity).
  assert (Hrun : Doubles.spendUTXOs Doubles.toy_sign (Doubles.of_Z 15)
                   Doubles.wallet_10_10_100
                 = Doubles.Returns
                     (Doubles.wallet_A_with [Doubles.coin_A "t3" 100])
                     (Doubles.mkSpend [input_A "t1"; input_A "t2"] Doubles.zero))
    by (vm_compute; reflexivity).
  split; [exact H|]. split; [exact Hrun|].
  pose proof (C6_oldest_first_doubles Doubles.toy_sign (Doubles.of_Z 15) _
                (Doubles.wallet_A_with []) Doubles.wallet_10_10_100 H) as Hc.
  rewrite Hrun in Hc. exact Hc.
Defined.

Lemma C10_spend_frame_doubles_witness :
  Doubles.spendUTXOs Doubles.toy_sign (Doubles.of_Z 15) Doubles.wallet_10_10_100
    = Doubles.Returns (Doubles.wallet_A_with [Doubles.coin_A "t3" 100])
        (Doubles.mkSpend [input_A "t1"; input_A "t2"] Doubles.zero) ∧
  Doubles.exact_steps Doubles.zero
    (Doubles.amounts (Doubles.coins Doubles.wallet_10_10_100)) = true ∧
  Doubles.addresses (Doubles.wallet_A_with [Doubles.coin_A "t3" 100])
    = Doubles.addresses Doubles.wallet_10_10_100 ∧
  Doubles.kp (Doubles.wallet_A_with [Doubles.coin_A "t3" 100])
    = Doubles.kp Doubles.wallet_10_10_100 ∧
  ∃ consumed,
    Doubles.coins Doubles.wallet_10_10_100
      = [Doubles.coin_A "t3" 100] ++ rev consumed ∧
    Forall2 (Doubles.spends Doubles.toy_sign
               (Doubles.addresses Doubles.wallet_10_10_100))
            consumed [input_A "t1"; input_A "t2"] ∧
    Forall2 (fun c i => inTxID i = Doubles.txID c ∧
                        inOutputIndex i = Doubles.outputIndex c)
            consumed [input_A "t1"; input_A "t2"] ∧
    length [input_A "t1"; input_A "t2"] = length consumed ∧
    ∃ b b' s,
      Doubles.to_Z (Doubles.balance Doubles.wallet_10_10_100) = Some b ∧
      Doubles.to_Z (Doubles.balance
                      (Doubles.wallet_A_with [Doubles.coin_A "t3" 100]))
        = Some b' ∧
      Doubles.int_sum (Doubles.amounts consumed) = Some s ∧
      b' = b - s.
Proof.
  assert (H : Doubles.spendUTXOs Doubles.toy_sign (Doubles.of_Z 15)
                Doubles.wallet_10_10_100
              = Doubles.Returns
                  (Doubles.wallet_A_with [Doubles.coin_A "t3" 100])
                  (Doubles.mkSpend [input_A "t1"; input_A "t2"] Doubles.zero))
    by (vm_compute; reflexivity).
  assert (He : Doubles.exact_steps Doubles.zero
                 (Doubles.amounts (Doubles.coins Doubles.wallet_10_10_100))
               = true) by (vm_compute; reflexivity).
  split; [exact H|]. split; [exact He|].
  destruct (C10_spend_frame_doubles Doubles.toy_sign (Doubles.of_Z 15)
              Doubles.wallet_10_10_100 _ _ H)
    as (Ha & Hk & consumed & Hcs & Hsp & Href & Hlen & Hbal).
  split; [exact Ha|]. split; [exact Hk|].
  exists consumed.
  split; [exact Hcs|]. split; [exact Hsp|]. split; [exact Href|].
  split; [exact Hlen|]. exact (Hbal He).
Defined.

(** C10 with the exact difference does not hold: the array holds coins of
    2^53, 1 and 1 (the coins of 1 are the oldest) and the request is 2.
    [balance] reads 2^53 before the call, each addition of 1 being rounded
    away; the call consumes the two coins of 1; [balance] reads 2^53 after
    it, not 2^53 - 2. *)
Lemma C10_counterexample_doubles :
  Doubles.spendUTXOs Doubles.toy_sign (Doubles.of_Z 2) Doubles.wallet_1_1_big
    = Doubles.Returns
        (Doubles.wallet_A_with [Doubles.coin_A "t3" 9007199254740992])
        (Doubles.mkSpend [input_A "t1"; input_A "t2"] Doubles.zero) ∧
  Doubles.coins Doubles.wallet_1_1_big
    = [Doubles.coin_A "t3" 9007199254740992]
      ++ rev [Doubles.coin_A "t1" 1; Doubles.coin_A "t2" 1] ∧
  Doubles.int_sum (Doubles.amounts [Doubles.coin_A "t1" 1; Doubles.coin_A "t2" 1])
    = Some 2 ∧
  Doubles.to_Z (Doubles.balance Doubles.wallet_1_1_big)
    = Some 9007199254740992 ∧
  Doubles.to_Z (Doubles.balance
                  (Doubles.wallet_A_with [Doubles.coin_A "t3" 9007199254740992]))
    = Some 9007199254740992 ∧
  Doubles.strict_eq
    (Doubles.balance
       (Doubles.wallet_A_with [Doubles.coin_A "t3" 9007199254740992]))
    (Doubles.sub (Doubles.balance Doubles.wallet_1_1_big) (Doubles.of_Z 2))
    = false.
Proof. repeat split; vm_compute; reflexivity. Qed.

(** ** Change and small coins *)

(** A coin whose amount is less than the requested amount is neither
    greater than nor equal to it. *)
Lemma lt_not_reaches target c :
  Doubles.lt (Doubles.amount (Doubles.output c)) target = true →
  ¬ Doubles.reaches target c.
Proof.
  unfold Doubles.lt, Doubles.reaches, Doubles.gt, Doubles.strict_eq.
  unfold SFltb, SFeqb.
  rewrite (SFcompare_antisym (Doubles.amount (Doubles.output c)) target).
  destruct (SFcompare (Doubles.amount (Doubles.output c)) target)
    as [[| |]|]; simpl; intros Hlt [H|H]; done.
Qed.

(** X10.  When the amount of every coin is less than the requested amount,
    the loop never runs one of the two branches that end in [break], the
    only place where change is computed: a returning [spendUTXOs] reports
    the change 0, whatever the coins it has consumed add up to. *)
Theorem X10_no_change_from_small_coins
  (sign : option string → Doubles.UTXO → option string) target w w' r :
  Forall (fun c => Doubles.lt (Doubles.amount (Doubles.output c)) target = true)
         (Doubles.coins w) →
  Doubles.spendUTXOs sign target w = Doubles.Returns w' r →
  Doubles.changeAmt r = Doubles.zero.
Proof.
  intros Hlt (_ & st' & Hrun & -> & ->)%dbl_spendUTXOs_Returns_inv. simpl.
  apply dbl_spend_loop_returns in Hrun as (consumed & new & Hcs & _ & _ & _ & Hend).
  destruct Hend as [(pre & c & -> & _ & Hc & _)|(_ & Hch & _)]; [|done].
  rewrite Hcs, Forall_app, Forall_rev_iff, Forall_app, Forall_singleton in Hlt.
  destruct Hlt as (_ & _ & Hlt). by apply lt_not_reaches in Hlt.
Qed.

Lemma X10_no_change_from_small_coins_witness :
  Forall (fun c => Doubles.lt (Doubles.amount (Doubles.output c))
                              (Doubles.of_Z 15) = true)
         (Doubles.coins
            (Doubles.wallet_A_with
               [Doubles.coin_A "t2" 10; Doubles.coin_A "t1" 10])) ∧
  Doubles.spendUTXOs Doubles.toy_sign (Doubles.of_Z 15)
    (Doubles.wallet_A_with [Doubles.coin_A "t2" 10; Doubles.coin_A "t1" 10])
    = Doubles.Returns (Doubles.wallet_A_with [])
        (Doubles.mkSpend [input_A "t1"; input_A "t2"] Doubles.zero) ∧
  Doubles.changeAmt (Doubles.mkSpend [input_A "t1"; input_A "t2"] Doubles.zero)
    = Doubles.zero.
Proof.
  assert (H1 : Forall (fun c => Doubles.lt (Doubles.amount (Doubles.output c))
                                           (Doubles.of_Z 15) = true)
                 (Doubles.coins
                    (Doubles.wallet_A_with
                       [Doubles.coin_A "t2" 10; Doubles.coin_A "t1" 10]))).
  { repeat constructor; vm_compute; reflexivity. }
  assert (H2 : Doubles.spendUTXOs Doubles.toy_sign (Doubles.of_Z 15)
                 (Doubles.wallet_A_with
                    [Doubles.coin_A "t2" 10; Doubles.coin_A "t1" 10])
               = Doubles.Returns (Doubles.wallet_A_with [])
                   (Doubles.mkSpend [input_A "t1"; input_A "t2"] Doubles.zero))
    by (vm_compute; reflexivity).
  split; [exact H1|]. split; [exact H2|].
  exact (X10_no_change_from_small_coins Doubles.toy_sign (Doubles.of_Z 15)
           _ _ _ H1 H2).
Defined.
